(** * jsonvaluate: the condition evaluation engine of [condition.go]

    A shallow embedding of the Go package [jsonvaluate]: the value coercion
    helpers, the custom-operator registry, the single-condition evaluator,
    the tree evaluator [EvaluateCondition], the chain evaluator
    [EvaluateConditionGroup], the bridge [ConvertToConditionGroup] and the
    dispatcher [EvaluateFlexibleCondition].

    Modelling decisions.
    - A Go [interface{}] value is a closed sum [any] over the kinds the
      engine inspects: nil, bool, the ten integer kinds, the two float kinds,
      string, [time.Time], [[]interface{}] and [map[string]interface{}].
    - [float64] is Rocq's primitive binary64 [float].
    - The process-wide registry [customOperators] is a field of an explicit
      [World] threaded through every call; the second field is a ghost log
      of the leaf evaluations and validator invocations of the run.
    - A Go panic is the [Panicked] outcome; [defer]/[recover] is [recovering].
    - There are two machines. In the first, a validator is a function of
      its two arguments that returns a bool or panics. In the second,
      [Stateful], a validator is a closure: its call can also change the
      variables it captured, write through its arguments into the data
      record and the condition, and register or unregister operators. The
      second machine with validators that are functions is the first
      ([EvaluateCondition_agrees], [EvaluateConditionGroup_agrees]).
    - An instant is a number of nanoseconds; [time.Unix] keeps its [int64]
      wrap-around.
    - Functions of Go's standard library that the package calls
      ([strconv.ParseFloat], [time.Parse], [reflect.DeepEqual], [fmt.Sprintf],
      [strings.ToLower], [regexp.MatchString]) are the fields of [GoLib]. *)

From Stdlib Require Import ZArith Bool List Ascii String Lia.
From Stdlib Require Import Floats.PrimFloat Floats.SpecFloat Floats.FloatOps.
From Stdlib Require Import Floats.FloatAxioms.
From stdpp Require Import base option list strings pretty gmap fin_maps.

Set Warnings "-register-all".

Local Open Scope Z_scope.
Local Open Scope string_scope.

(** ** Values *)

Inductive IntKind : Type :=
| KInt | KInt8 | KInt16 | KInt32 | KInt64
| KUint | KUint8 | KUint16 | KUint32 | KUint64.

Inductive FloatKind : Type := KFloat32 | KFloat64.

(** An instant, in nanoseconds since January 1 of year 1, the epoch of
    Go's [time.Time]; [Before] and [After] are [<] and [>]. *)
Definition Time : Type := Z.

Inductive any : Type :=
| VNil
| VBool (b : bool)
| VInt (k : IntKind) (n : Z)
| VFloat (k : FloatKind) (f : float)
| VString (s : string)
| VTime (t : Time)
| VSlice (l : list any)
| VMap (m : gmap string any).

Definition isNil (v : any) : bool :=
  match v with VNil => true | _ => false end.

(** ** Outcomes and the evaluation monad *)

Inductive outcome (A : Type) : Type :=
| Returned (a : A)
| Panicked (msg : string).
Arguments Returned {A} a.
Arguments Panicked {A} msg.

Definition Operator : Type := string.
Definition Logic : Type := string.

(** [CustomOperatorValidator]: [func(fieldValue, expectedValue interface{}) bool]. *)
Definition CustomOperatorValidator : Type := any -> any -> outcome bool.

Inductive Event : Type :=
| LeafEvaluated (key : string) (op : Operator) (expected : any)
| ValidatorInvoked (op : Operator) (fieldValue expectedValue : any).

Record World : Type := mkWorld {
  customOperators : gmap Operator CustomOperatorValidator;
  log : list Event
}.

Definition M (A : Type) : Type := World -> outcome A * World.

Definition ret {A} (a : A) : M A := fun w => (Returned a, w).

Definition bind {A B} (m : M A) (k : A -> M B) : M B :=
  fun w =>
    match m w with
    | (Returned a, w') => k a w'
    | (Panicked msg, w') => (Panicked msg, w')
    end.

Notation "'let*' x := m 'in' k" := (bind m (fun x => k))
  (at level 10, x name, m at level 100, k at level 200).

Definition panic {A} (msg : string) : M A := fun w => (Panicked msg, w).

Definition record (e : Event) : M unit :=
  fun w => (Returned tt, mkWorld (customOperators w) (log w ++ [e])).

Definition lookupOperator (op : Operator) : M (option CustomOperatorValidator) :=
  fun w => (Returned (customOperators w !! op), w).

(** [defer func() { if r := recover(); r != nil { } }()] in a function with
    an unnamed [bool] result: a panic of the body is swallowed and the
    function returns the zero value [false]. *)
Definition recovering (body : M bool) : M bool :=
  fun w =>
    match body w with
    | (Panicked _, w') => (Returned false, w')
    | r => r
    end.

(** [validator(v, value)]. *)
Definition invoke (op : Operator) (validator : CustomOperatorValidator)
    (fieldValue expectedValue : any) : M bool :=
  let* _ := record (ValidatorInvoked op fieldValue expectedValue) in
  fun w => (validator fieldValue expectedValue, w).

(** ** Constants *)

Definition OperatorEq : Operator := "==".
Definition OperatorNeq : Operator := "!=".
Definition OperatorGt : Operator := ">".
Definition OperatorGte : Operator := ">=".
Definition OperatorLt : Operator := "<".
Definition OperatorLte : Operator := "<=".
Definition OperatorIn : Operator := "in".
Definition OperatorNin : Operator := "nin".
Definition OperatorContains : Operator := "contains".
Definition OperatorNcontains : Operator := "ncontains".
Definition OperatorIsnull : Operator := "isnull".
Definition OperatorIsnotnull : Operator := "isnotnull".
Definition OperatorIsEmpty : Operator := "isempty".
Definition OperatorIsNotEmpty : Operator := "isnotempty".
Definition OperatorIsTrue : Operator := "istrue".
Definition OperatorIsFalse : Operator := "isfalse".
Definition OperatorLike : Operator := "like".
Definition OperatorIlike : Operator := "ilike".
Definition OperatorNlike : Operator := "nlike".
Definition OperatorStartsWith : Operator := "startswith".
Definition OperatorEndsWith : Operator := "endswith".
Definition OperatorBetween : Operator := "between".
Definition OperatorNotBetween : Operator := "notbetween".

Definition LogicAnd : Logic := "AND".
Definition LogicOr : Logic := "OR".

(** The six operators of the first [switch] of [evalSingleCondition]. *)
Definition stateOperators : list Operator :=
  [OperatorIsnull; OperatorIsnotnull; OperatorIsEmpty; OperatorIsNotEmpty;
   OperatorIsTrue; OperatorIsFalse].

(** The seventeen operators of its second [switch]. *)
Definition comparisonOperators : list Operator :=
  [OperatorEq; OperatorNeq; OperatorGt; OperatorGte; OperatorLt; OperatorLte;
   OperatorIn; OperatorNin; OperatorContains; OperatorNcontains;
   OperatorLike; OperatorIlike; OperatorNlike; OperatorStartsWith;
   OperatorEndsWith; OperatorBetween; OperatorNotBetween].

Definition builtinOperators : list Operator :=
  stateOperators ++ comparisonOperators.

Definition inList (op : Operator) (l : list Operator) : bool :=
  existsb (String.eqb op) l.

(** A Go [switch] on a string: the first case whose constant equals [x]. *)
Fixpoint switch {A} (x : string) (cases : list (string * A)) (default : A) : A :=
  match cases with
  | [] => default
  | (c, a) :: rest => if String.eqb x c then a else switch x rest default
  end.

(** ** The conditions of the two forms *)

Inductive Conditions : Type :=
  mkConditions (Logic_ : Logic) (Children_ : list Conditions)
               (Key_ : string) (Operator_ : Operator) (Value_ : any).

Definition cLogic (c : Conditions) : Logic :=
  match c with mkConditions l _ _ _ _ => l end.
Definition cChildren (c : Conditions) : list Conditions :=
  match c with mkConditions _ ch _ _ _ => ch end.
Definition cKey (c : Conditions) : string :=
  match c with mkConditions _ _ k _ _ => k end.
Definition cOperator (c : Conditions) : Operator :=
  match c with mkConditions _ _ _ o _ => o end.
Definition cValue (c : Conditions) : any :=
  match c with mkConditions _ _ _ _ v => v end.

Inductive ConditionGroup : Type :=
  mkConditionGroup (Conditions_ : list ConditionWithLogic)
with ConditionWithLogic : Type :=
  mkConditionWithLogic (Key_ : string) (Operator_ : Operator) (Value_ : any)
                       (Group_ : option ConditionGroup) (NextLogic_ : Logic).

Definition gConditions (g : ConditionGroup) : list ConditionWithLogic :=
  match g with mkConditionGroup l => l end.
Definition lKey (c : ConditionWithLogic) : string :=
  match c with mkConditionWithLogic k _ _ _ _ => k end.
Definition lOperator (c : ConditionWithLogic) : Operator :=
  match c with mkConditionWithLogic _ o _ _ _ => o end.
Definition lValue (c : ConditionWithLogic) : any :=
  match c with mkConditionWithLogic _ _ v _ _ => v end.
Definition lGroup (c : ConditionWithLogic) : option ConditionGroup :=
  match c with mkConditionWithLogic _ _ _ g _ => g end.
Definition lNextLogic (c : ConditionWithLogic) : Logic :=
  match c with mkConditionWithLogic _ _ _ _ n => n end.

(** ** Go's standard library, as far as the package calls it *)

Class GoLib : Type := {
  (** [strconv.ParseFloat(s, 64)]; [None] when [err != nil]. *)
  ParseFloat : string -> option float;
  (** [time.Parse(layout, value)]; [None] when [err != nil]. *)
  TimeParse : string -> string -> option Time;
  (** [time.Time.String], the [fmt.Stringer] of the closed sum. *)
  TimeString : Time -> string;
  (** [fmt.Sprintf("%v", v)]. *)
  Sprintf_v : any -> string;
  (** [reflect.DeepEqual]. *)
  DeepEqual : any -> any -> bool;
  (** [strings.ToLower]. *)
  ToLower : string -> string;
  (** [regexp.MatchString(pattern, s)]; [None] when [err != nil]. *)
  MatchString : string -> string -> option bool
}.

(** [float64(val)] for an integer: round to nearest, ties to even. *)
Definition float64_of_Z (n : Z) : float :=
  SF2Prim (binary_normalize prec emax n 0 false).

(** Signed 64-bit wrap-around. *)
Definition wrap64 (z : Z) : Z :=
  (z + 9223372036854775808) mod 18446744073709551616 - 9223372036854775808.

(** [time.Unix(sec, 0)]: the instant keeps its seconds since January 1 of
    year 1 in an [int64], [sec + unixToInternal] with
    [unixToInternal = 62135596800], and the addition wraps around. *)
Definition unixToInternal : Z := 62135596800.

Definition Unix (sec : Z) : Time := wrap64 (sec + unixToInternal) * 1000000000.

(** [strings.HasPrefix], [strings.HasSuffix], [strings.Contains]. *)
Definition HasPrefix (s pre : string) : bool := String.prefix pre s.

Definition HasSuffix (s suf : string) : bool :=
  (String.length suf <=? String.length s)%nat
  && String.eqb
       (String.substring (String.length s - String.length suf)
                         (String.length suf) s)
       suf.

Fixpoint Contains (s substr : string) : bool :=
  String.prefix substr s
  || match s with
     | EmptyString => false
     | String _ rest => Contains rest substr
     end.

(** [strings.ReplaceAll(s, old, new)] for a one-byte [old]. *)
Fixpoint ReplaceAll (s : string) (old : ascii) (new : string) : string :=
  match s with
  | EmptyString => EmptyString
  | String c rest =>
      if Ascii.eqb c old then new ++ ReplaceAll rest old new
      else String c (ReplaceAll rest old new)
  end.

Definition RFC3339 : string := "2006-01-02T15:04:05Z07:00".
Definition RFC3339Nano : string := "2006-01-02T15:04:05.999999999Z07:00".

Section Engine.
Context {lib : GoLib}.

(** ** Helper functions *)

Definition isEmpty (v : any) : bool :=
  match v with
  | VNil => true
  | VString s => String.eqb s ""
  | VSlice l => (length l =? 0)%nat
  | VMap m => (size m =? 0)%nat
  | _ => false
  end.

Definition toBool (v : any) : bool :=
  match v with
  | VNil => false
  | VBool val => val
  | VString val => String.eqb (ToLower val) "true"
  | VInt _ n => negb (n =? 0)%Z
  | VFloat _ f => negb (PrimFloat.eqb f 0%float)
  | _ => negb (isEmpty v)
  end.

Definition parseFloat (s : string) : option float := ParseFloat s.

Definition toNumber (v : any) : option float :=
  match v with
  | VInt _ n => Some (float64_of_Z n)
  | VFloat _ f => Some f
  | VString val => parseFloat val
  | _ => None
  end.

Definition toString (v : any) : string :=
  match v with
  | VNil => ""
  | VString val => val
  | VTime t => TimeString t
  | _ => Sprintf_v v
  end.

Definition timeFormats : list string :=
  [RFC3339; RFC3339Nano; "2006-01-02 15:04:05"; "2006-01-02"; "15:04:05"].

Fixpoint firstParse (formats : list string) (val : string) : option Time :=
  match formats with
  | [] => None
  | format :: rest =>
      match TimeParse format val with
      | Some t => Some t
      | None => firstParse rest val
      end
  end.

Definition toTime (v : any) : option Time :=
  match v with
  | VTime val => Some val
  | VString val => firstParse timeFormats val
  | VInt KInt64 val => Some (Unix val)
  | _ => None
  end.

Definition isEqual (v1 v2 : any) : bool :=
  if isNil v1 && isNil v2 then true
  else if isNil v1 || isNil v2 then false
  else if DeepEqual v1 v2 then true
  else
    match toNumber v1, toNumber v2 with
    | Some n1, Some n2 => PrimFloat.eqb n1 n2
    | _, _ => String.eqb (toString v1) (toString v2)
    end.

Definition compareValues (v1 v2 : any) : Z :=
  match toNumber v1, toNumber v2 with
  | Some n1, Some n2 =>
      if PrimFloat.ltb n1 n2 then -1
      else if PrimFloat.ltb n2 n1 then 1
      else 0
  | _, _ =>
      match toTime v1, toTime v2 with
      | Some t1, Some t2 =>
          if (t1 <? t2)%Z then -1
          else if (t2 <? t1)%Z then 1
          else 0
      | _, _ =>
          let s1 := toString v1 in
          let s2 := toString v2 in
          if String.ltb s1 s2 then -1
          else if String.ltb s2 s1 then 1
          else 0
      end
  end.

Definition isIn (v collection : any) : bool :=
  match collection with
  | VNil => false
  | VSlice l => existsb (isEqual v) l
  | VMap m => existsb (fun key => isEqual v (VString key)) (map_to_list m).*1
  | VString s => Contains s (toString v)
  | _ => false
  end.

Definition contains (haystack needle : any) : bool :=
  if isNil haystack || isNil needle then false
  else Contains (toString haystack) (toString needle).

Definition like (v pattern : any) (caseInsensitive : bool) : bool :=
  if isNil v || isNil pattern then false
  else
    let str := toString v in
    let pat := toString pattern in
    let str := if caseInsensitive then ToLower str else str in
    let pat := if caseInsensitive then ToLower pat else pat in
    let regexPattern := ReplaceAll pat "%" ".*" in
    let regexPattern := ReplaceAll regexPattern "_" "." in
    let regexPattern := "^" ++ regexPattern ++ "$" in
    match MatchString regexPattern str with
    | Some matched => matched
    | None => false
    end.

Definition startsWith (v prefix : any) : bool :=
  if isNil v || isNil prefix then false
  else HasPrefix (toString v) (toString prefix).

Definition endsWith (v suffix : any) : bool :=
  if isNil v || isNil suffix then false
  else HasSuffix (toString v) (toString suffix).

Definition between (v bounds : any) : bool :=
  if isNil v || isNil bounds then false
  else
    match bounds with
    | VSlice [min; max] =>
        (compareValues v min >=? 0)%Z && (compareValues v max <=? 0)%Z
    | _ => false
    end.

(** ** The registry *)

Definition RegisterCustomOperator (operator : Operator)
    (validator : option CustomOperatorValidator) : M unit :=
  match validator with
  | None => panic "custom operator validator cannot be nil"
  | Some f =>
      fun w => (Returned tt, mkWorld (<[operator := f]> (customOperators w)) (log w))
  end.

Definition UnregisterCustomOperator (operator : Operator) : M unit :=
  fun w => (Returned tt, mkWorld (delete operator (customOperators w)) (log w)).

(** The order of the result is the iteration order of a Go map, which is
    unspecified; here it is the order of [map_to_list]. *)
Definition GetRegisteredCustomOperators : M (list Operator) :=
  fun w => (Returned (map_to_list (customOperators w)).*1, w).

(** ** The single-condition evaluator *)

(** The registry lookup and the guarded call of the validator; the source
    has this block twice, for an absent key and in the [default] case. *)
Definition callCustom (op : Operator) (v value : any) : M bool :=
  let* found := lookupOperator op in
  match found with
  | Some validator => recovering (invoke op validator v value)
  | None => ret false
  end.

Definition evalSingleCondition (key : string) (op : Operator) (value : any)
    (data : gmap string any) : M bool :=
  let* _ := record (LeafEvaluated key op value) in
  let v := default VNil (data !! key) in
  let exists_ := bool_decide (is_Some (data !! key)) in
  switch op
    [ (OperatorIsnull, ret (negb exists_ || isNil v));
      (OperatorIsnotnull, ret (exists_ && negb (isNil v)));
      (OperatorIsEmpty, ret (isEmpty v));
      (OperatorIsNotEmpty, ret (negb (isEmpty v)));
      (OperatorIsTrue, ret (toBool v));
      (OperatorIsFalse, ret (negb (toBool v))) ]
    (if negb exists_ then callCustom op v value
     else
       switch op
         [ (OperatorEq, ret (isEqual v value));
           (OperatorNeq, ret (negb (isEqual v value)));
           (OperatorGt, ret (compareValues v value >? 0)%Z);
           (OperatorGte, ret (compareValues v value >=? 0)%Z);
           (OperatorLt, ret (compareValues v value <? 0)%Z);
           (OperatorLte, ret (compareValues v value <=? 0)%Z);
           (OperatorIn, ret (isIn v value));
           (OperatorNin, ret (negb (isIn v value)));
           (OperatorContains, ret (contains v value));
           (OperatorNcontains, ret (negb (contains v value)));
           (OperatorLike, ret (like v value false));
           (OperatorIlike, ret (like v value true));
           (OperatorNlike, ret (negb (like v value false)));
           (OperatorStartsWith, ret (startsWith v value));
           (OperatorEndsWith, ret (endsWith v value));
           (OperatorBetween, ret (between v value));
           (OperatorNotBetween, ret (negb (between v value))) ]
         (callCustom op v value)).

(** ** The tree evaluator *)

(** The two [for _, child := range cond.Children] loops, over the
    evaluation [eval] of one child. *)
Definition andChildren (eval : Conditions -> M bool) : list Conditions -> M bool :=
  fix each (children : list Conditions) : M bool :=
    match children with
    | [] => ret true
    | child :: rest =>
        let* r := eval child in
        if negb r then ret false else each rest
    end.

Definition orChildren (eval : Conditions -> M bool) : list Conditions -> M bool :=
  fix each (children : list Conditions) : M bool :=
    match children with
    | [] => ret false
    | child :: rest =>
        let* r := eval child in
        if r then ret true else each rest
    end.

Fixpoint EvaluateCondition (cond : Conditions) (data : gmap string any) : M bool :=
  let single :=
    if negb (String.eqb (cKey cond) "") && negb (String.eqb (cOperator cond) "")
    then evalSingleCondition (cKey cond) (cOperator cond) (cValue cond) data
    else ret true in
  if negb (String.eqb (cLogic cond) "") && (0 <? length (cChildren cond))%nat then
    switch (cLogic cond)
      [ (LogicAnd,
         andChildren (fun child => EvaluateCondition child data) (cChildren cond));
        (LogicOr,
         orChildren (fun child => EvaluateCondition child data) (cChildren cond)) ]
      single
  else single.

(** ** The chain evaluator *)

(** The connective applied in the loop body, from the previous link. *)
Definition applyLogic (prevLogic : Logic) (result currentResult : bool) : bool :=
  switch prevLogic
    [ (LogicAnd, result && currentResult);
      (LogicOr, result || currentResult) ]
    (result && currentResult).

(** The loop [for i := 1; i < len(group.Conditions); i++], over the
    evaluation [eval] of one link: [prevCondition] is [group.Conditions[i-1]]
    and [rest] starts at index [i]. *)
Definition chainLoop (eval : ConditionWithLogic -> M bool)
  : ConditionWithLogic -> bool -> list ConditionWithLogic -> M bool :=
  fix loop (prevCondition : ConditionWithLogic) (result : bool)
      (rest : list ConditionWithLogic) : M bool :=
    match rest with
    | [] => ret result
    | current :: rest' =>
        let* currentResult := eval current in
        loop current
             (applyLogic (lNextLogic prevCondition) result currentResult)
             rest'
    end.

Fixpoint EvaluateConditionGroup (group : ConditionGroup) (data : gmap string any)
    {struct group} : M bool :=
  match gConditions group with
  | [] => ret true
  | first :: rest =>
      let* result := evaluateConditionWithLogic first data in
      chainLoop (fun c => evaluateConditionWithLogic c data) first result rest
  end
with evaluateConditionWithLogic (condition : ConditionWithLogic)
    (data : gmap string any) {struct condition} : M bool :=
  match lGroup condition with
  | Some group => EvaluateConditionGroup group data
  | None =>
      evalSingleCondition (lKey condition) (lOperator condition)
                          (lValue condition) data
  end.

(** ** Constructors and the conversion bridge *)

Definition NewSimpleCondition (key : string) (operator : Operator) (value : any)
  : Conditions := mkConditions "" [] key operator value.

Definition NewAndGroup (children : list Conditions) : Conditions :=
  mkConditions LogicAnd children "" "" VNil.

Definition NewOrGroup (children : list Conditions) : Conditions :=
  mkConditions LogicOr children "" "" VNil.

Definition NewConditionGroup (conditions : list ConditionWithLogic)
  : ConditionGroup := mkConditionGroup conditions.

Definition NewConditionWithLogic (key : string) (operator : Operator)
    (value : any) (nextLogic : Logic) : ConditionWithLogic :=
  mkConditionWithLogic key operator value None nextLogic.

Definition NewGroupConditionWithLogic (group : ConditionGroup)
    (nextLogic : Logic) : ConditionWithLogic :=
  mkConditionWithLogic "" "" VNil (Some group) nextLogic.

(** The loop [for i, child := range conditions.Children] of the bridge, over
    the conversion [convert] of a nested child; [n] is
    [len(conditions.Children)] and [children] starts at index [i]. *)
Definition convertChildren (convert : Conditions -> ConditionGroup)
    (logic : Logic) (n : nat) : nat -> list Conditions -> list ConditionWithLogic :=
  fix each (i : nat) (children : list Conditions) : list ConditionWithLogic :=
    match children with
    | [] => []
    | child :: rest =>
        let nextLogic := if (i <? n - 1)%nat then logic else "" in
        (if negb (String.eqb (cKey child) "") then
           mkConditionWithLogic (cKey child) (cOperator child) (cValue child)
                                None nextLogic
         else
           mkConditionWithLogic "" "" VNil (Some (convert child)) nextLogic)
        :: each (S i) rest
    end.

Fixpoint ConvertToConditionGroup (conditions : Conditions) : ConditionGroup :=
  if negb (String.eqb (cKey conditions) "") then
    mkConditionGroup
      [mkConditionWithLogic (cKey conditions) (cOperator conditions)
                            (cValue conditions) None ""]
  else if (length (cChildren conditions) =? 0)%nat then mkConditionGroup []
  else
    mkConditionGroup
      (convertChildren ConvertToConditionGroup (cLogic conditions)
                       (length (cChildren conditions)) 0%nat
                       (cChildren conditions)).

(** ** The dispatcher *)

(** The dynamic types an [interface{}] argument can carry. *)
Inductive GoType : Type :=
| TConditions | TConditionGroup | TConditionsPtr | TConditionGroupPtr
| TOther.

(** The argument [conditions interface{}]: a value of one of the four
    condition types (a pointer may be nil), or any other value. *)
Inductive dynamic : Type :=
| DynConditions (cond : Conditions)
| DynConditionGroup (cond : ConditionGroup)
| DynConditionsPtr (cond : option Conditions)
| DynConditionGroupPtr (cond : option ConditionGroup)
| DynAny (v : any).

Definition dynamicType (x : dynamic) : GoType :=
  match x with
  | DynConditions _ => TConditions
  | DynConditionGroup _ => TConditionGroup
  | DynConditionsPtr _ => TConditionsPtr
  | DynConditionGroupPtr _ => TConditionGroupPtr
  | DynAny _ => TOther
  end.

Definition nilDereference : string :=
  "runtime error: invalid memory address or nil pointer dereference".

Definition EvaluateFlexibleCondition (conditions : dynamic)
    (data : gmap string any) : M bool :=
  match conditions with
  | DynConditions cond => EvaluateCondition cond data
  | DynConditionGroup cond => EvaluateConditionGroup cond data
  | DynConditionsPtr cond =>
      match cond with
      | Some c => EvaluateCondition c data
      | None => panic nilDereference
      end
  | DynConditionGroupPtr cond =>
      match cond with
      | Some g => EvaluateConditionGroup g data
      | None => panic nilDereference
      end
  | DynAny _ => ret false
  end.

End Engine.

(** ** Notions the properties are stated with *)

Section Notions.
Context {lib : GoLib}.

(** A Group as the evaluator and the data model classify it, and a Leaf. *)
Definition isGroupNode (c : Conditions) : bool :=
  (String.eqb (cLogic c) LogicAnd || String.eqb (cLogic c) LogicOr)
  && negb (length (cChildren c) =? 0)%nat.

Definition isLeafNode (c : Conditions) : bool :=
  negb (String.eqb (cKey c) "") && negb (String.eqb (cOperator c) "").

(** Every node is a Group with logic AND/OR and non-empty children, or a
    Leaf with non-empty key and operator. The two variants are kept apart,
    as the struct documents them (group fields for a group, leaf fields
    for a single condition): a Group carries no key, and a Leaf is not at
    the same time a Group. *)
Fixpoint wellFormed (c : Conditions) : bool :=
  ((isGroupNode c && String.eqb (cKey c) "")
   || (isLeafNode c && negb (isGroupNode c)))
  && forallb wellFormed (cChildren c).

(** A valid Group has its logic set and children; a valid Leaf has a key
    and an operator. *)
Definition isValidGroup (c : Conditions) : bool :=
  negb (String.eqb (cLogic c) "") && negb (length (cChildren c) =? 0)%nat.

Definition isValidLeaf (c : Conditions) : bool := isLeafNode c.

(** Evaluate every condition of a list, in list order, and collect the
    results. *)
Fixpoint evaluateAll (children : list Conditions) (data : gmap string any)
  : M (list bool) :=
  match children with
  | [] => ret []
  | child :: rest =>
      let* r := EvaluateCondition child data in
      let* rs := evaluateAll rest data in
      ret (r :: rs)
  end.

(** Evaluate every link of a chain, in list order, and collect the results. *)
Fixpoint evaluateLinks (links : list ConditionWithLogic) (data : gmap string any)
  : M (list bool) :=
  match links with
  | [] => ret []
  | link :: rest =>
      let* r := evaluateConditionWithLogic link data in
      let* rs := evaluateLinks rest data in
      ret (r :: rs)
  end.

(** The connective of one step of a chain: AND is conjunction, OR is
    disjunction, anything else is treated as AND. *)
Definition connective (nextLogic : Logic) (result current : bool) : bool :=
  if String.eqb nextLogic "AND" then result && current
  else if String.eqb nextLogic "OR" then result || current
  else result && current.

(** The left fold of a chain over the results of its links: start from the
    result of link 0, and combine the result of link [i] with the
    [next_logic] of link [i-1]; the empty chain is true. *)
Definition chainFold (links : list ConditionWithLogic) (results : list bool) : bool :=
  match results with
  | [] => true
  | first :: subsequent =>
      fold_left
        (fun result '(previous, current) =>
           connective (lNextLogic previous) result current)
        (zip links subsequent)
        first
  end.

(** The sign of the comparison of two numbers, as IEEE 754 compares them:
    -1 when the first is below the second, 1 when it is above, 0 when they
    are equal or not comparable (one of them is a NaN). *)
Definition numericOrder (n1 n2 : float) : Z :=
  match PrimFloat.compare n1 n2 with
  | FLt => -1
  | FGt => 1
  | FEq | FNotComparable => 0
  end.

(** The lexicographic order of two strings, byte by byte. *)
Definition lexicographicOrder (s1 s2 : string) : Z :=
  match String.compare s1 s2 with
  | Lt => -1
  | Eq => 0
  | Gt => 1
  end.

(** The boolean a tree evaluates to under the registry [reg]. *)
Definition treeValue (reg : gmap Operator CustomOperatorValidator)
    (data : gmap string any) (c : Conditions) : bool :=
  match fst (EvaluateCondition c data (mkWorld reg [])) with
  | Returned b => b
  | Panicked _ => false
  end.

(** [m] returns [a] under the registry [reg], leaves the registry as it is
    and appends [t] to the log, whatever the log was. *)
Definition runs {A} (m : M A) (reg : gmap Operator CustomOperatorValidator)
    (a : A) (t : list Event) : Prop :=
  forall l, m (mkWorld reg l) = (Returned a, mkWorld reg (l ++ t)).

(** The world [w] after the events [t]. *)
Definition logged (w : World) (t : list Event) : World :=
  mkWorld (customOperators w) (log w ++ t).

(** The four dynamic types the dispatcher has a case for. *)
Definition isConditionType (t : GoType) : bool :=
  match t with
  | TConditions | TConditionsPtr | TConditionGroup | TConditionGroupPtr => true
  | TOther => false
  end.

(** What the guarded call of a validator returns. *)
Definition contained (r : outcome bool) : bool :=
  match r with
  | Returned b => b
  | Panicked _ => false
  end.

End Notions.

(** ** A small instance of the library, for closed examples

    Each field is the Go function restricted to the inputs the closed
    examples give it, and is not the Go function elsewhere.
    - [ParseFloat]: a non-empty string of decimal digits is the number it
      writes (as [strconv.ParseFloat] up to 308 digits); any other string
      is refused, which is Go's answer for the strings of letters used
      below, none of which spells a number.
    - [TimeParse]: refuses. Each of the five layouts of [timeFormats], the
      only layouts the package calls [time.Parse] with, needs decimal
      digits, so this is Go's answer for these layouts on a value without
      a digit; it is not Go's answer for other layouts (the layout ["b"]
      parses the value ["b"]) nor for values that spell a date. The
      examples compare no string with a digit by time.
    - [Sprintf_v]: booleans, integers and strings print as [%v] prints
      them; the examples format nothing else.
    - [DeepEqual]: nil, booleans, [int], [float64], strings and instants
      are deeply equal when they are the same value; the examples compare
      nothing else for deep equality.
    - [ToLower]: ASCII letters.
    - [TimeString] and [MatchString] are not called by the examples. *)

Definition isDigit (c : ascii) : bool :=
  (48 <=? nat_of_ascii c)%nat && (nat_of_ascii c <=? 57)%nat.

Fixpoint digitsValue (s : string) (acc : Z) : option Z :=
  match s with
  | EmptyString => Some acc
  | String c rest =>
      if isDigit c
      then digitsValue rest (10 * acc + Z.of_nat (nat_of_ascii c - 48))
      else None
  end.

Definition exampleParseFloat (s : string) : option float :=
  match s with
  | EmptyString => None
  | _ => option_map float64_of_Z (digitsValue s 0)
  end.

Definition lowerAscii (c : ascii) : ascii :=
  if (65 <=? nat_of_ascii c)%nat && (nat_of_ascii c <=? 90)%nat
  then ascii_of_nat (nat_of_ascii c + 32) else c.

Fixpoint exampleToLower (s : string) : string :=
  match s with
  | EmptyString => EmptyString
  | String c rest => String (lowerAscii c) (exampleToLower rest)
  end.

Definition exampleDeepEqual (a b : any) : bool :=
  match a, b with
  | VNil, VNil => true
  | VBool x, VBool y => Bool.eqb x y
  | VInt KInt x, VInt KInt y => (x =? y)%Z
  | VFloat KFloat64 x, VFloat KFloat64 y => PrimFloat.eqb x y
  | VString x, VString y => String.eqb x y
  | VTime x, VTime y => (x =? y)%Z
  | _, _ => false
  end.

Definition exampleSprintf_v (v : any) : string :=
  match v with
  | VBool true => "true"
  | VBool false => "false"
  | VInt _ n => pretty n
  | VString s => s
  | _ => ""
  end.

Definition exampleLib : GoLib := {|
  ParseFloat := exampleParseFloat;
  TimeParse := fun _ _ => None;
  TimeString := fun _ => "";
  Sprintf_v := exampleSprintf_v;
  DeepEqual := exampleDeepEqual;
  ToLower := exampleToLower;
  MatchString := fun _ _ => None
|}.

Definition emptyWorld : World := mkWorld ∅ [].
Definition noData : gmap string any := ∅.

(** The record [{"age": 25, "country": "TH"}]. *)
Definition person : gmap string any :=
  <["age" := VInt KInt 25]> (<["country" := VString "TH"]> ∅).

(** Three validators: one that accepts everything, one that panics, and a
    case-insensitive comparison of the two string forms. *)
Definition alwaysTrue : CustomOperatorValidator := fun _ _ => Returned true.

Definition panicking : CustomOperatorValidator := fun _ _ => Panicked "boom".

Definition iequal : CustomOperatorValidator :=
  fun fieldValue expectedValue =>
    Returned (String.eqb
                (exampleToLower (toString (lib := exampleLib) fieldValue))
                (exampleToLower (toString (lib := exampleLib) expectedValue))).

(** [age > 18 AND (country == "SG" OR country == "TH")]. *)
Definition adultInRegion : Conditions :=
  NewAndGroup
    [ NewSimpleCondition "age" OperatorGt (VInt KInt 18);
      NewOrGroup
        [ NewSimpleCondition "country" OperatorEq (VString "SG");
          NewSimpleCondition "country" OperatorEq (VString "TH") ] ].

(** An AND group whose first child is false and whose second child would
    invoke the panicking validator. *)
Definition falseThenPanicking : Conditions :=
  NewAndGroup
    [ NewSimpleCondition "age" OperatorIsnotnull VNil;
      NewSimpleCondition "age" "boom" VNil ].

Definition worldWith (op : Operator) (f : CustomOperatorValidator) : World :=
  mkWorld (<[op := f]> ∅) [].

Definition boomWorld : World := worldWith "boom" panicking.
Definition alwaysWorld : World := worldWith "always" alwaysTrue.

(** The world after [RegisterCustomOperator("==", alwaysTrue)]. *)
Definition eqRegistered : World :=
  snd (RegisterCustomOperator OperatorEq (Some alwaysTrue) emptyWorld).

(** The leaf [country iequal "th"], and the world after [iequal] is
    registered. *)
Definition countryIsTh : Conditions :=
  NewSimpleCondition "country" "iequal" (VString "th").

Definition iequalRegistered : World :=
  snd (RegisterCustomOperator "iequal" (Some iequal) emptyWorld).

(** A degenerate node: logic without children, key without operator. *)
Definition degenerateNode : Conditions :=
  mkConditions LogicAnd [] "age" "" (VInt KInt 18).

(** ** Further notions *)

Section FurtherNotions.
Context {lib : GoLib}.

(** The boolean a chain, and a link, evaluate to under the registry [reg]. *)
Definition chainValue (reg : gmap Operator CustomOperatorValidator)
    (data : gmap string any) (g : ConditionGroup) : bool :=
  contained (fst (EvaluateConditionGroup g data (mkWorld reg []))).

Definition linkValue (reg : gmap Operator CustomOperatorValidator)
    (data : gmap string any) (l : ConditionWithLogic) : bool :=
  contained (fst (evaluateConditionWithLogic l data (mkWorld reg []))).

(** The boolean a leaf evaluates to in the world [w]. *)
Definition leafValue (key : string) (op : Operator) (value : any)
    (data : gmap string any) (w : World) : bool :=
  contained (fst (evalSingleCondition key op value data w)).

End FurtherNotions.

(** Each built-in operator with the operator that the source implements as
    its negation ([!isEqual], [!isIn], ...), and the two pairs of order
    operators that test complementary signs of [compareValues]. *)
Definition negatedPairs : list (Operator * Operator) :=
  [ (OperatorEq, OperatorNeq); (OperatorIn, OperatorNin);
    (OperatorContains, OperatorNcontains); (OperatorLike, OperatorNlike);
    (OperatorBetween, OperatorNotBetween);
    (OperatorLt, OperatorGte); (OperatorGt, OperatorLte) ].

Definition negatedStatePairs : list (Operator * Operator) :=
  [ (OperatorIsnull, OperatorIsnotnull); (OperatorIsEmpty, OperatorIsNotEmpty);
    (OperatorIsTrue, OperatorIsFalse) ].

(** A node with a key and no operator; a node with children and neither
    key nor logic; a node with an unknown logic, children and leaf fields. *)
Definition operatorlessLeaf : Conditions :=
  mkConditions "" [] "age" "" VNil.

Definition groupWithoutLogic : Conditions :=
  mkConditions "" [NewSimpleCondition "age" OperatorIsnull VNil] "" "" VNil.

Definition xorNode : Conditions :=
  mkConditions "XOR" [NewSimpleCondition "age" OperatorIsnull VNil]
               "age" OperatorGt (VInt KInt 18).

(** Two links: [age > 30], connected by OR, and [country == "TH"]. *)
Definition ageAbove30Or : ConditionWithLogic :=
  NewConditionWithLogic "age" OperatorGt (VInt KInt 30) LogicOr.

Definition countryTh : ConditionWithLogic :=
  NewConditionWithLogic "country" OperatorEq (VString "TH") "".

(** * The machine with validators that are Go closures

    A [CustomOperatorValidator] is a Go func value: besides returning a
    bool or panicking, its call can read and write the variables it
    captured, change the contents of a slice or map it received as an
    argument, and call [RegisterCustomOperator] and
    [UnregisterCustomOperator]. This second embedding of the registry and
    of the three evaluators threads all of that: the state holds the
    registry, the captured variables and the map that [data] refers to,
    and an evaluator returns, with its boolean, the condition as the calls
    left it. The embedding above is what this one does when every validator
    is a function of its two arguments. Aliasing between two entries of
    the record or between two leaves, closures that capture the record or
    the tree themselves, and calls of the evaluators from inside a
    validator are not modelled. *)

Module Stateful.

(** The variables the closures capture. *)
Definition Store : Type := gmap string any.

(** A validator and what one call of it does: its result, the captured
    variables afterwards, the contents of its two arguments afterwards, and
    the calls of the registry API it made, in order ([Some] registers,
    [None] unregisters). *)
Inductive Closure : Type :=
  mkClosure (body_ : any -> any -> Store -> Effect)
with Effect : Type :=
  mkEffect (result_ : outcome bool) (store_ : Store)
           (fieldValue_ expectedValue_ : any)
           (registryCalls_ : list (Operator * option Closure)).

Definition body (c : Closure) : any -> any -> Store -> Effect :=
  match c with mkClosure b => b end.
Definition result (e : Effect) : outcome bool :=
  match e with mkEffect r _ _ _ _ => r end.
Definition storeAfter (e : Effect) : Store :=
  match e with mkEffect _ s _ _ _ => s end.
Definition fieldValueAfter (e : Effect) : any :=
  match e with mkEffect _ _ v _ _ => v end.
Definition expectedValueAfter (e : Effect) : any :=
  match e with mkEffect _ _ _ v _ => v end.
Definition registryCalls (e : Effect) : list (Operator * option Closure) :=
  match e with mkEffect _ _ _ _ l => l end.

Record State : Type := mkState {
  customOperators : gmap Operator Closure;
  store : Store;
  data : gmap string any
}.

Definition S (A : Type) : Type := State -> outcome A * State.

Definition ret {A} (a : A) : S A := fun s => (Returned a, s).

Definition bind {A B} (m : S A) (k : A -> S B) : S B :=
  fun s =>
    match m s with
    | (Returned a, s') => k a s'
    | (Panicked msg, s') => (Panicked msg, s')
    end.

Definition panic {A} (msg : string) : S A := fun s => (Panicked msg, s).

(** What a callee can change of an [interface{}] argument: the elements of
    a slice, not its length, and the entries of a map. *)
Definition writeThrough (old new : any) : any :=
  match old, new with
  | VSlice l, VSlice l' => if (length l =? length l')%nat then VSlice l' else old
  | VMap _, VMap m' => VMap m'
  | _, _ => old
  end.

(** The record after a validator that received [data[key]] returned. *)
Definition writeField (key : string) (v new : any) (d : gmap string any)
  : gmap string any :=
  match d !! key with
  | Some _ => <[key := writeThrough v new]> d
  | None => d
  end.

Definition applyCalls (calls : list (Operator * option Closure))
    (reg : gmap Operator Closure) : gmap Operator Closure :=
  fold_left
    (fun reg call =>
       match snd call with
       | Some validator => <[fst call := validator]> reg
       | None => delete (fst call) reg
       end)
    calls reg.

Definition RegisterCustomOperator (operator : Operator)
    (validator : option Closure) : S unit :=
  match validator with
  | None => panic "custom operator validator cannot be nil"
  | Some f =>
      fun s => (Returned tt,
                mkState (<[operator := f]> (customOperators s)) (store s) (data s))
  end.

Definition UnregisterCustomOperator (operator : Operator) : S unit :=
  fun s => (Returned tt,
            mkState (delete operator (customOperators s)) (store s) (data s)).

Section Machine.
Context {lib : GoLib}.

(** The registry lookup and the guarded call [validator(v, value)]: the
    lock is released before the call, and a panic of the validator is
    recovered into [false]; what the call did before it panicked stays
    done. The second component is [value] as the call left it. *)
Definition callCustom (key : string) (op : Operator) (v value : any)
  : S (bool * any) :=
  fun s =>
    match customOperators s !! op with
    | Some validator =>
        let e := body validator v value (store s) in
        (Returned (contained (result e),
                   writeThrough value (expectedValueAfter e)),
         mkState (applyCalls (registryCalls e) (customOperators s))
                 (storeAfter e)
                 (writeField key v (fieldValueAfter e) (data s)))
    | None => (Returned (false, value), s)
    end.

Definition evalSingleCondition (key : string) (op : Operator) (value : any)
  : S (bool * any) :=
  fun s =>
    let v := default VNil (data s !! key) in
    let exists_ := bool_decide (is_Some (data s !! key)) in
    switch op
      [ (OperatorIsnull, ret (negb exists_ || isNil v, value));
        (OperatorIsnotnull, ret (exists_ && negb (isNil v), value));
        (OperatorIsEmpty, ret (isEmpty v, value));
        (OperatorIsNotEmpty, ret (negb (isEmpty v), value));
        (OperatorIsTrue, ret (toBool v, value));
        (OperatorIsFalse, ret (negb (toBool v), value)) ]
      (if negb exists_ then callCustom key op v value
       else
         switch op
           [ (OperatorEq, ret (isEqual v value, value));
             (OperatorNeq, ret (negb (isEqual v value), value));
             (OperatorGt, ret ((compareValues v value >? 0)%Z, value));
             (OperatorGte, ret ((compareValues v value >=? 0)%Z, value));
             (OperatorLt, ret ((compareValues v value <? 0)%Z, value));
             (OperatorLte, ret ((compareValues v value <=? 0)%Z, value));
             (OperatorIn, ret (isIn v value, value));
             (OperatorNin, ret (negb (isIn v value), value));
             (OperatorContains, ret (contains v value, value));
             (OperatorNcontains, ret (negb (contains v value), value));
             (OperatorLike, ret (like v value false, value));
             (OperatorIlike, ret (like v value true, value));
             (OperatorNlike, ret (negb (like v value false), value));
             (OperatorStartsWith, ret (startsWith v value, value));
             (OperatorEndsWith, ret (endsWith v value, value));
             (OperatorBetween, ret (between v value, value));
             (OperatorNotBetween, ret (negb (between v value), value)) ]
           (callCustom key op v value))
      s.

(** The two loops over [cond.Children]; the second component is the
    children as the calls left them. *)
Definition andChildren (eval : Conditions -> S (bool * Conditions))
  : list Conditions -> S (bool * list Conditions) :=
  fix each (children : list Conditions) : S (bool * list Conditions) :=
    match children with
    | [] => ret (true, [])
    | child :: rest =>
        bind (eval child) (fun r =>
        if negb (fst r) then ret (false, snd r :: rest)
        else bind (each rest) (fun rs => ret (fst rs, snd r :: snd rs)))
    end.

Definition orChildren (eval : Conditions -> S (bool * Conditions))
  : list Conditions -> S (bool * list Conditions) :=
  fix each (children : list Conditions) : S (bool * list Conditions) :=
    match children with
    | [] => ret (false, [])
    | child :: rest =>
        bind (eval child) (fun r =>
        if fst r then ret (true, snd r :: rest)
        else bind (each rest) (fun rs => ret (fst rs, snd r :: snd rs)))
    end.

Fixpoint EvaluateCondition (cond : Conditions) : S (bool * Conditions) :=
  let single :=
    if negb (String.eqb (cKey cond) "") && negb (String.eqb (cOperator cond) "")
    then
      bind (evalSingleCondition (cKey cond) (cOperator cond) (cValue cond))
           (fun r =>
              ret (fst r,
                   mkConditions (cLogic cond) (cChildren cond) (cKey cond)
                                (cOperator cond) (snd r)))
    else ret (true, cond) in
  if negb (String.eqb (cLogic cond) "") && (0 <? length (cChildren cond))%nat then
    switch (cLogic cond)
      [ (LogicAnd,
         bind (andChildren EvaluateCondition (cChildren cond)) (fun r =>
           ret (fst r,
                mkConditions (cLogic cond) (snd r) (cKey cond)
                             (cOperator cond) (cValue cond))));
        (LogicOr,
         bind (orChildren EvaluateCondition (cChildren cond)) (fun r =>
           ret (fst r,
                mkConditions (cLogic cond) (snd r) (cKey cond)
                             (cOperator cond) (cValue cond)))) ]
      single
  else single.

(** The loop of the chain evaluator; the second component is the rest of
    the links as the calls left them. *)
Definition chainLoop (eval : ConditionWithLogic -> S (bool * ConditionWithLogic))
  : ConditionWithLogic -> bool -> list ConditionWithLogic ->
    S (bool * list ConditionWithLogic) :=
  fix loop (prevCondition : ConditionWithLogic) (result : bool)
      (rest : list ConditionWithLogic) : S (bool * list ConditionWithLogic) :=
    match rest with
    | [] => ret (result, [])
    | current :: rest' =>
        bind (eval current) (fun r =>
        bind (loop (snd r)
                   (applyLogic (lNextLogic prevCondition) result (fst r))
                   rest')
             (fun rs => ret (fst rs, snd r :: snd rs)))
    end.

Fixpoint EvaluateConditionGroup (group : ConditionGroup) {struct group}
  : S (bool * ConditionGroup) :=
  match gConditions group with
  | [] => ret (true, group)
  | first :: rest =>
      bind (evaluateConditionWithLogic first) (fun r =>
      bind (chainLoop evaluateConditionWithLogic (snd r) (fst r) rest)
           (fun rs => ret (fst rs, mkConditionGroup (snd r :: snd rs))))
  end
with evaluateConditionWithLogic (condition : ConditionWithLogic)
    {struct condition} : S (bool * ConditionWithLogic) :=
  match lGroup condition with
  | Some group =>
      bind (EvaluateConditionGroup group) (fun r =>
        ret (fst r,
             mkConditionWithLogic (lKey condition) (lOperator condition)
                                  (lValue condition) (Some (snd r))
                                  (lNextLogic condition)))
  | None =>
      bind (evalSingleCondition (lKey condition) (lOperator condition)
                                (lValue condition))
           (fun r =>
              ret (fst r,
                   mkConditionWithLogic (lKey condition) (lOperator condition)
                                        (snd r) None (lNextLogic condition)))
  end.

End Machine.

(** A validator that is a function of its two arguments: it returns what
    [f] returns and does nothing else. *)
Definition function (f : CustomOperatorValidator) : Closure :=
  mkClosure (fun fieldValue expectedValue s =>
               mkEffect (f fieldValue expectedValue) s fieldValue expectedValue []).

(** The function a validator computes when its captured variables are the
    empty store. *)
Definition asFunction (c : Closure) : CustomOperatorValidator :=
  fun fieldValue expectedValue => result (body c fieldValue expectedValue ∅).

(** Every registered validator is a function of its two arguments: it
    keeps no state, does not write through its arguments and does not call
    the registry API. *)
Definition validatorsAreFunctions (s : State) : Prop :=
  forall op c, customOperators s !! op = Some c -> exists f, c = function f.

(** The boolean of an outcome that carries a condition with it. *)
Definition answer {A} (r : outcome (bool * A) * State) : outcome bool :=
  match fst r with
  | Returned a => Returned (fst a)
  | Panicked msg => Panicked msg
  end.

(** The registry of the first machine that corresponds to the registry of
    [s]. *)
Definition functions (s : State) : gmap Operator CustomOperatorValidator :=
  asFunction <$> customOperators s.

(** In the state [s], the computation [ms] of this machine returns a
    boolean with the condition [x], and leaves [s] as it is; the
    computation [mp] of the first machine returns the same boolean under
    the registry [functions s]. *)
Definition agrees {A} (s : State) (x : A) (ms : S (bool * A)) (mp : M bool)
  : Prop :=
  exists b t, ms s = (Returned (b, x), s) /\ runs mp (functions s) b t.

End Stateful.

(** ** Closures and states, for closed examples *)

(** [called := false] and
    [func(_, _ interface{}) bool { first := !called; called = true; return first }]:
    true at its first call only. *)
Definition firstCallOnly : Stateful.Closure :=
  Stateful.mkClosure (fun fieldValue expectedValue s =>
    let called := match s !! "called" with Some (VBool b) => b | _ => false end in
    Stateful.mkEffect (Returned (negb called)) (<["called" := VBool true]> s)
                      fieldValue expectedValue []).

(** [if s, ok := x.([]interface{}); ok && len(s) > 0 { s[0] = nil }]. *)
Definition clearFirst (x : any) : any :=
  match x with
  | VSlice (_ :: l) => VSlice (VNil :: l)
  | _ => x
  end.

(** [s, ok := x.([]interface{}); ok && len(s) > 0 && s[0] != nil]. *)
Definition firstIsSet (x : any) : bool :=
  match x with
  | VSlice (v :: _) => negb (isNil v)
  | _ => false
  end.

(** A validator that tells whether the first element of the field value is
    set, and clears the first element of each argument that is a slice. *)
Definition scrub : Stateful.Closure :=
  Stateful.mkClosure (fun fieldValue expectedValue s =>
    Stateful.mkEffect (Returned (firstIsSet fieldValue)) s
                      (clearFirst fieldValue) (clearFirst expectedValue) []).

(** [func(_, _ interface{}) bool { UnregisterCustomOperator("once"); return true }]. *)
Definition selfRemoving : Stateful.Closure :=
  Stateful.mkClosure (fun fieldValue expectedValue s =>
    Stateful.mkEffect (Returned true) s fieldValue expectedValue
                      [("once", None)]).

Definition stateWith (op : Operator) (c : Stateful.Closure)
    (data : gmap string any) : Stateful.State :=
  Stateful.mkState (<[op := c]> ∅) ∅ data.

Definition iequalState : Stateful.State :=
  stateWith "iequal" (Stateful.function iequal) person.

Definition onceState : Stateful.State := stateWith "once" firstCallOnly person.

Definition selfRemovingState : Stateful.State :=
  stateWith "once" selfRemoving person.

(** The record [{"tags": ["a", "b"]}]. *)
Definition tagged : gmap string any :=
  <["tags" := VSlice [VString "a"; VString "b"]]> ∅.

Definition scrubState : Stateful.State := stateWith "scrub" scrub tagged.

(** The leaves [age once nil] and [tags scrub ["x", "y"]], and for a leaf
    on [key] the well-formed tree [(key isnotnull OR leaf) AND leaf]. *)
Definition onceLeaf : Conditions := NewSimpleCondition "age" "once" VNil.

Definition scrubLeaf : Conditions :=
  NewSimpleCondition "tags" "scrub" (VSlice [VString "x"; VString "y"]).




(** [age > 18 AND country iequal "th"]. *)
Definition adultInThailand : Conditions :=
  NewAndGroup [NewSimpleCondition "age" OperatorGt (VInt KInt 18); countryIsTh].

(** * Properties *)

Local Open Scope list_scope.

Section Properties.
Context {lib : GoLib}.
Implicit Types (reg : gmap Operator CustomOperatorValidator).
Implicit Types (data : gmap string any) (w : World).
Implicit Types (op : Operator) (f : CustomOperatorValidator) (key : string).

(** ** Induction over the two forms *)

Lemma Conditions_nested_ind (P : Conditions -> Prop) :
  (forall l ch k o v, Forall P ch -> P (mkConditions l ch k o v)) ->
  forall c, P c.
Proof.
  intros step. fix IH 1. intros [l ch k o v]. apply step.
  revert ch. fix IHch 1. intros [|c ch].
  - constructor.
  - constructor; [apply IH | apply IHch].
Qed.

Lemma ConditionGroup_nested_ind
    (P : ConditionGroup -> Prop) (Q : ConditionWithLogic -> Prop) :
  (forall links, Forall Q links -> P (mkConditionGroup links)) ->
  (forall k o v n, Q (mkConditionWithLogic k o v None n)) ->
  (forall k o v g n, P g -> Q (mkConditionWithLogic k o v (Some g) n)) ->
  forall g, P g.
Proof.
  intros stepG stepLeaf stepNested. fix IH 1. intros [links]. apply stepG.
  revert links. fix IHl 1. intros [|[k o v [g|] n] links].
  - constructor.
  - constructor; [apply stepNested, IH | apply IHl].
  - constructor; [apply stepLeaf | apply IHl].
Qed.

(** ** The monad *)

Lemma runs_ret {A} reg (a : A) : runs (ret a) reg a [].
Proof. intros l. unfold ret. by rewrite app_nil_r. Qed.

Lemma runs_bind {A B} (m : M A) (k : A -> M B) reg a t b t' :
  runs m reg a t -> runs (k a) reg b t' -> runs (bind m k) reg b (t ++ t').
Proof.
  intros Hm Hk l. unfold bind. rewrite Hm, Hk. by rewrite app_assoc.
Qed.

Lemma runs_at {A} (m : M A) w a t :
  runs m (customOperators w) a t ->
  m w = (Returned a, mkWorld (customOperators w) (log w ++ t)).
Proof. intros Hm. destruct w as [reg l]. apply Hm. Qed.

Lemma runs_inj {A} (m : M A) reg a t a' t' :
  runs m reg a t -> runs m reg a' t' -> a = a' /\ t = t'.
Proof.
  intros H1 H2. specialize (H1 []). specialize (H2 []).
  rewrite H1 in H2. by inversion H2.
Qed.

Lemma runs_record reg e : runs (record e) reg tt [e].
Proof. by intros l. Qed.

Lemma runs_lookupOperator reg op : runs (lookupOperator op) reg (reg !! op) [].
Proof. intros l. unfold lookupOperator. simpl. by rewrite app_nil_r. Qed.

Lemma runs_guarded_call reg op f v value :
  runs (recovering (invoke op f v value)) reg
       (contained (f v value)) [ValidatorInvoked op v value].
Proof.
  intros l. unfold recovering, invoke, bind, record. simpl.
  by destruct (f v value).
Qed.

Lemma runs_callCustom_registered reg op f v value :
  reg !! op = Some f ->
  runs (callCustom op v value) reg
       (contained (f v value)) [ValidatorInvoked op v value].
Proof.
  intros Hf. unfold callCustom.
  change [ValidatorInvoked op v value] with ([] ++ [ValidatorInvoked op v value]).
  eapply runs_bind; [apply runs_lookupOperator |].
  cbv beta. rewrite Hf. apply runs_guarded_call.
Qed.

Lemma runs_callCustom_unregistered reg op v value :
  reg !! op = None -> runs (callCustom op v value) reg false [].
Proof.
  intros Hf. unfold callCustom.
  change (@nil Event) with (@nil Event ++ []).
  eapply runs_bind; [apply runs_lookupOperator |].
  cbv beta. rewrite Hf. apply runs_ret.
Qed.

Lemma callCustom_runs reg op v value :
  exists b t, runs (callCustom op v value) reg b t.
Proof.
  destruct (reg !! op) as [f|] eqn:Hf.
  - eauto using runs_callCustom_registered.
  - eauto using runs_callCustom_unregistered.
Qed.

Lemma switch_elim {A} (P : A -> Prop) x cases default :
  P default -> Forall (fun ca => P ca.2) cases -> P (switch x cases default).
Proof.
  intros Hd Hc. induction Hc as [|[c a] rest Ha _ IH]; simpl; [done |].
  by destruct (String.eqb x c).
Qed.

Lemma switch_miss {A} x (cases : list (string * A)) default :
  inList x cases.*1 = false -> switch x cases default = default.
Proof.
  induction cases as [|[c a] rest IH]; simpl; [done |].
  intros [Hc Hrest]%orb_false_iff. rewrite Hc. by apply IH.
Qed.

(** ** The single-condition evaluator *)

Lemma evalSingleCondition_runs reg key op value data :
  exists b t,
    runs (evalSingleCondition key op value data) reg b
         (LeafEvaluated key op value :: t).
Proof.
  unfold evalSingleCondition.
  cut (forall m : M bool, (exists b t, runs m reg b t) ->
         exists b t, runs (let* _ := record (LeafEvaluated key op value) in m)
                          reg b (LeafEvaluated key op value :: t)).
  { intros Hcut. apply Hcut.
    apply switch_elim; [| repeat constructor; simpl; eauto using runs_ret].
    destruct (negb _); [apply callCustom_runs |].
    apply switch_elim; [apply callCustom_runs |].
    repeat constructor; simpl; eauto using runs_ret. }
  intros m (b & t & Hm). exists b, t.
  change (LeafEvaluated key op value :: t) with ([LeafEvaluated key op value] ++ t).
  eapply runs_bind; [apply runs_record | done].
Qed.
(** ** The tree evaluator *)

Lemma EvaluateCondition_unfold cond data :
  EvaluateCondition cond data =
  let single :=
    if negb (String.eqb (cKey cond) "") && negb (String.eqb (cOperator cond) "")
    then evalSingleCondition (cKey cond) (cOperator cond) (cValue cond) data
    else ret true in
  if negb (String.eqb (cLogic cond) "") && (0 <? length (cChildren cond))%nat then
    switch (cLogic cond)
      [ (LogicAnd,
         andChildren (fun child => EvaluateCondition child data) (cChildren cond));
        (LogicOr,
         orChildren (fun child => EvaluateCondition child data) (cChildren cond)) ]
      single
  else single.
Proof. by destruct cond. Qed.

Lemma andChildren_runs (eval : Conditions -> M bool) reg children :
  Forall (fun c => exists b t, runs (eval c) reg b t) children ->
  exists b t, runs (andChildren eval children) reg b t.
Proof.
  induction 1 as [|c rest (b & t & Hc) _ (b' & t' & Hrest)]; simpl.
  - eauto using runs_ret.
  - destruct b.
    + exists b', (t ++ t'). eapply runs_bind; [exact Hc | exact Hrest].
    + exists false, (t ++ []). eapply runs_bind; [exact Hc | apply runs_ret].
Qed.

Lemma orChildren_runs (eval : Conditions -> M bool) reg children :
  Forall (fun c => exists b t, runs (eval c) reg b t) children ->
  exists b t, runs (orChildren eval children) reg b t.
Proof.
  induction 1 as [|c rest (b & t & Hc) _ (b' & t' & Hrest)]; simpl.
  - eauto using runs_ret.
  - destruct b.
    + exists true, (t ++ []). eapply runs_bind; [exact Hc | apply runs_ret].
    + exists b', (t ++ t'). eapply runs_bind; [exact Hc | exact Hrest].
Qed.

Lemma single_runs reg data k o v :
  exists b t,
    runs (if negb (String.eqb k "") && negb (String.eqb o "")
          then evalSingleCondition k o v data else ret true) reg b t.
Proof.
  destruct (_ && _); [| eauto using runs_ret].
  destruct (evalSingleCondition_runs reg k o v data) as (b & t & Hb). eauto.
Qed.

Lemma EvaluateCondition_runs reg data cond :
  exists b t, runs (EvaluateCondition cond data) reg b t.
Proof.
  induction cond as [l ch k o v IH] using Conditions_nested_ind.
  rewrite EvaluateCondition_unfold.
  cbn [cLogic cChildren cKey cOperator cValue]. cbv zeta.
  pose proof (single_runs reg data k o v) as Hsingle.
  destruct (negb (String.eqb l "") && (0 <? length ch)%nat); [| exact Hsingle].
  apply switch_elim; [exact Hsingle |].
  repeat constructor; simpl.
  - by apply andChildren_runs.
  - by apply orChildren_runs.
Qed.

(** ** The chain evaluator *)

Lemma EvaluateConditionGroup_unfold group data :
  EvaluateConditionGroup group data =
  match gConditions group with
  | [] => ret true
  | first :: rest =>
      let* result := evaluateConditionWithLogic first data in
      chainLoop (fun c => evaluateConditionWithLogic c data) first result rest
  end.
Proof. by destruct group. Qed.

Lemma evaluateConditionWithLogic_unfold condition data :
  evaluateConditionWithLogic condition data =
  match lGroup condition with
  | Some group => EvaluateConditionGroup group data
  | None =>
      evalSingleCondition (lKey condition) (lOperator condition)
                          (lValue condition) data
  end.
Proof. by destruct condition. Qed.

Lemma chainLoop_runs (eval : ConditionWithLogic -> M bool) reg rest :
  Forall (fun c => exists b t, runs (eval c) reg b t) rest ->
  forall prev result, exists b t, runs (chainLoop eval prev result rest) reg b t.
Proof.
  induction 1 as [|c rest (b & t & Hc) _ IH]; intros prev result; simpl.
  - eauto using runs_ret.
  - destruct (IH c (applyLogic (lNextLogic prev) result b)) as (b' & t' & Hrest).
    exists b', (t ++ t'). eapply runs_bind; [exact Hc | exact Hrest].
Qed.

Lemma EvaluateConditionGroup_runs reg data group :
  exists b t, runs (EvaluateConditionGroup group data) reg b t.
Proof.
  induction group as [links IH | k o v n | k o v g n IH]
    using ConditionGroup_nested_ind
    with (Q := fun c => exists b t, runs (evaluateConditionWithLogic c data) reg b t).
  - rewrite EvaluateConditionGroup_unfold. simpl.
    destruct IH as [|first rest (b & t & Hfirst) Hrest]; [eauto using runs_ret |].
    destruct (chainLoop_runs _ reg rest Hrest first b) as (b' & t' & Hloop).
    exists b', (t ++ t'). eapply runs_bind; [exact Hfirst | exact Hloop].
  - rewrite evaluateConditionWithLogic_unfold. simpl.
    destruct (evalSingleCondition_runs reg k o v data) as (b & t & Hb). eauto.
  - rewrite evaluateConditionWithLogic_unfold. simpl. exact IH.
Qed.

Lemma evaluateConditionWithLogic_runs reg data condition :
  exists b t, runs (evaluateConditionWithLogic condition data) reg b t.
Proof.
  rewrite evaluateConditionWithLogic_unfold.
  destruct (lGroup condition) as [g|].
  - apply EvaluateConditionGroup_runs.
  - destruct (evalSingleCondition_runs reg (lKey condition) (lOperator condition)
                (lValue condition) data) as (b & t & Hb). eauto.
Qed.

(** ** Degenerate nodes and the dispatcher *)

(** C8. A node that is neither a valid Group (logic set and children
    non-empty) nor a valid Leaf (key and operator both non-empty) evaluates
    to true, for every data record; nothing is evaluated on the way. *)
Theorem degenerate_node_is_true cond data w :
  isValidGroup cond = false ->
  isValidLeaf cond = false ->
  EvaluateCondition cond data w = (Returned true, w).
Proof.
  unfold isValidGroup, isValidLeaf, isLeafNode. intros Hgroup Hleaf.
  rewrite EvaluateCondition_unfold. cbv zeta. rewrite Hleaf.
  replace (0 <? length (cChildren cond))%nat
    with (negb (length (cChildren cond) =? 0)%nat)
    by (by destruct (cChildren cond)).
  by rewrite Hgroup.
Qed.

(** C10. When the dynamic type of the argument is none of [Conditions],
    [*Conditions], [ConditionGroup], [*ConditionGroup], the dispatcher
    returns false: it does not panic, and it does not answer true as for a
    degenerate node. *)
Theorem flexible_other_type_is_false conditions data w :
  isConditionType (dynamicType conditions) = false ->
  EvaluateFlexibleCondition conditions data w = (Returned false, w).
Proof. by destruct conditions. Qed.

(** C3, at the failing input: a nil [*Conditions] or [*ConditionGroup] makes
    the dispatcher panic on the dereference, for every data record. *)
Theorem flexible_nil_pointer_panics data w :
  EvaluateFlexibleCondition (DynConditionsPtr None) data w
    = (Panicked nilDereference, w)
  /\ EvaluateFlexibleCondition (DynConditionGroupPtr None) data w
    = (Panicked nilDereference, w).
Proof. by split. Qed.

(** The rest of the contract of C3 holds. The two evaluators always return
    a boolean; they leave the registry as it is. *)
Lemma EvaluateCondition_returns cond data w :
  exists b t, EvaluateCondition cond data w = (Returned b, logged w t).
Proof.
  destruct (EvaluateCondition_runs (customOperators w) data cond) as (b & t & H).
  exists b, t. by apply runs_at.
Qed.

Lemma EvaluateConditionGroup_returns group data w :
  exists b t, EvaluateConditionGroup group data w = (Returned b, logged w t).
Proof.
  destruct (EvaluateConditionGroup_runs (customOperators w) data group)
    as (b & t & H).
  exists b, t. by apply runs_at.
Qed.

(** Registration panics exactly when the validator is nil. *)
Lemma RegisterCustomOperator_panics_iff operator validator w :
  (exists msg, fst (RegisterCustomOperator operator validator w) = Panicked msg)
  <-> validator = None.
Proof.
  destruct validator as [f|]; simpl; split.
  - by intros [msg ?].
  - done.
  - done.
  - intros _. by eexists.
Qed.

(** A panic of a validator is contained in its leaf, which is false. *)
Lemma validator_panic_contained key op value data w f msg :
  customOperators w !! op = Some f ->
  f (default VNil (data !! key)) value = Panicked msg ->
  inList op builtinOperators = false ->
  evalSingleCondition key op value data w
  = (Returned false,
     logged w [LeafEvaluated key op value;
               ValidatorInvoked op (default VNil (data !! key)) value]).
Proof.
  intros Hf Hpanic Hop. unfold evalSingleCondition.
  unfold inList, builtinOperators in Hop. rewrite existsb_app in Hop.
  apply orb_false_iff in Hop as [Hstate Hcmp].
  rewrite (switch_miss op) by exact Hstate.
  rewrite (switch_miss op) by exact Hcmp.
  assert (runs (callCustom op (default VNil (data !! key)) value)
               (customOperators w) false
               [ValidatorInvoked op (default VNil (data !! key)) value]) as Hcall.
  { replace false with (contained (f (default VNil (data !! key)) value))
      by (by rewrite Hpanic).
    by apply runs_callCustom_registered. }
  apply (runs_at _ w false
           ([LeafEvaluated key op value]
            ++ [ValidatorInvoked op (default VNil (data !! key)) value])).
  eapply runs_bind; [apply runs_record |].
  by destruct (negb _).
Qed.

(** ** Absent keys *)

Lemma evalSingleCondition_absent_custom key op value data :
  data !! key = None ->
  inList op stateOperators = false ->
  evalSingleCondition key op value data
  = (let* _ := record (LeafEvaluated key op value) in callCustom op VNil value).
Proof.
  intros Hnone Hop. unfold evalSingleCondition.
  rewrite (switch_miss op) by exact Hop. by rewrite Hnone.
Qed.

(** C6. When the key is absent from the data record: the six
    existence/state operators are evaluated on the nil field ([isnull] is
    true, [isnotnull] is false); for any other operator a validator
    registered under that identifier is invoked with [fieldValue = nil] and
    the condition's value, and the leaf is what it returns (false when it
    panics); without such a validator the leaf is false. *)
Theorem absent_key_semantics key op value data w :
  data !! key = None ->
  (op = OperatorIsnull ->
     evalSingleCondition key op value data w
     = (Returned true, logged w [LeafEvaluated key op value]))
  /\ (op = OperatorIsnotnull ->
     evalSingleCondition key op value data w
     = (Returned false, logged w [LeafEvaluated key op value]))
  /\ (op = OperatorIsEmpty ->
     evalSingleCondition key op value data w
     = (Returned true, logged w [LeafEvaluated key op value]))
  /\ (op = OperatorIsNotEmpty ->
     evalSingleCondition key op value data w
     = (Returned false, logged w [LeafEvaluated key op value]))
  /\ (op = OperatorIsTrue ->
     evalSingleCondition key op value data w
     = (Returned false, logged w [LeafEvaluated key op value]))
  /\ (op = OperatorIsFalse ->
     evalSingleCondition key op value data w
     = (Returned true, logged w [LeafEvaluated key op value]))
  /\ (inList op stateOperators = false ->
     forall f, customOperators w !! op = Some f ->
     evalSingleCondition key op value data w
     = (Returned (contained (f VNil value)),
        logged w [LeafEvaluated key op value; ValidatorInvoked op VNil value]))
  /\ (inList op stateOperators = false ->
     customOperators w !! op = None ->
     evalSingleCondition key op value data w
     = (Returned false, logged w [LeafEvaluated key op value])).
Proof.
  intros Hnone.
  repeat split;
    try (intros ->; unfold evalSingleCondition, bind, record;
         by rewrite Hnone).
  - intros Hop f Hf. rewrite evalSingleCondition_absent_custom by done.
    apply (runs_at _ w _ ([LeafEvaluated key op value]
                          ++ [ValidatorInvoked op VNil value])).
    eapply runs_bind; [apply runs_record |].
    by apply runs_callCustom_registered.
  - intros Hop Hf. rewrite evalSingleCondition_absent_custom by done.
    apply (runs_at _ w _ ([LeafEvaluated key op value] ++ [])).
    eapply runs_bind; [apply runs_record |].
    by apply runs_callCustom_unregistered.
Qed.

(** ** Built-in operators and the registry *)

Lemma inList_cases op (l : list Operator) :
  inList op l = true -> Exists (fun c => op = c) l.
Proof.
  unfold inList. intros (c & Hin & Heq)%existsb_exists.
  apply Exists_exists. exists c. split; [by apply list_elem_of_In |].
  by apply String.eqb_eq.
Qed.

Ltac each_operator H :=
  apply inList_cases in H;
  repeat (apply Exists_cons in H as [H|H]; [subst |]);
  [.. | by apply Exists_nil in H].

(** C2, as the code has it. The registry accepts any identifier: a
    validator registered under a built-in identifier becomes an entry, and
    unregistering removes it. A leaf whose operator is built-in is
    evaluated by the built-in semantics, with the same result for every
    registry state and without invoking a validator, when its key is
    present in the data record or its operator is one of the six
    existence/state operators. *)
Theorem builtin_semantics_registry_independent key op value data f w :
  inList op builtinOperators = true ->
  is_Some (data !! key) \/ inList op stateOperators = true ->
  (exists w', RegisterCustomOperator op (Some f) w = (Returned tt, w')
              /\ customOperators w' !! op = Some f)
  /\ (exists w', UnregisterCustomOperator op w = (Returned tt, w')
                /\ customOperators w' !! op = None)
  /\ (exists b, forall w',
        evalSingleCondition key op value data w'
        = (Returned b, logged w' [LeafEvaluated key op value])).
Proof.
  intros Hop Hpresent. split; [| split].
  - eexists. split; [reflexivity |]. simpl. apply lookup_insert_eq.
  - eexists. split; [reflexivity |]. simpl. apply lookup_delete_eq.
  - destruct (data !! key) as [x|] eqn:Hdata.
    + clear Hpresent. each_operator Hop;
        eexists; intros w'; unfold evalSingleCondition, bind, record;
        rewrite Hdata; reflexivity.
    + destruct Hpresent as [[x Hx]|Hstate]; [done |]. clear Hop.
      each_operator Hstate;
        eexists; intros w'; unfold evalSingleCondition, bind, record;
        rewrite Hdata; reflexivity.
Qed.

(** ** Short-circuit in a tree group *)

Lemma evaluateAll_cons_inv child rest data w rs w1 :
  evaluateAll (child :: rest) data w = (Returned rs, w1) ->
  exists r rs' w',
    EvaluateCondition child data w = (Returned r, w')
    /\ evaluateAll rest data w' = (Returned rs', w1)
    /\ rs = r :: rs'.
Proof.
  simpl. unfold bind, ret.
  destruct (EvaluateCondition child data w) as [[r|msg] w']; [| done].
  destruct (evaluateAll rest data w') as [[rs'|msg] w''] eqn:Hrest; [| done].
  intros [= <- <-]. by exists r, rs', w'.
Qed.

Lemma andChildren_stops data pre child post w rs w1 w2 :
  evaluateAll pre data w = (Returned rs, w1) ->
  Forall (fun r => r = true) rs ->
  EvaluateCondition child data w1 = (Returned false, w2) ->
  andChildren (fun c => EvaluateCondition c data) (pre ++ child :: post) w
  = (Returned false, w2).
Proof.
  revert w rs. induction pre as [|c pre IH]; intros w rs Hpre Hrs Hchild.
  - injection Hpre as <- <-. simpl. unfold bind. by rewrite Hchild.
  - apply evaluateAll_cons_inv in Hpre as (r & rs' & w' & Hc & Hpre & ->).
    apply Forall_cons in Hrs as [-> Hrs].
    simpl. unfold bind at 1. rewrite Hc. simpl. eauto.
Qed.

Lemma andChildren_completes data children w rs w1 :
  evaluateAll children data w = (Returned rs, w1) ->
  Forall (fun r => r = true) rs ->
  andChildren (fun c => EvaluateCondition c data) children w = (Returned true, w1).
Proof.
  revert w rs. induction children as [|c children IH]; intros w rs Hall Hrs.
  - by injection Hall as <- <-.
  - apply evaluateAll_cons_inv in Hall as (r & rs' & w' & Hc & Hall & ->).
    apply Forall_cons in Hrs as [-> Hrs].
    simpl. unfold bind at 1. rewrite Hc. simpl. eauto.
Qed.

Lemma orChildren_stops data pre child post w rs w1 w2 :
  evaluateAll pre data w = (Returned rs, w1) ->
  Forall (fun r => r = false) rs ->
  EvaluateCondition child data w1 = (Returned true, w2) ->
  orChildren (fun c => EvaluateCondition c data) (pre ++ child :: post) w
  = (Returned true, w2).
Proof.
  revert w rs. induction pre as [|c pre IH]; intros w rs Hpre Hrs Hchild.
  - injection Hpre as <- <-. simpl. unfold bind. by rewrite Hchild.
  - apply evaluateAll_cons_inv in Hpre as (r & rs' & w' & Hc & Hpre & ->).
    apply Forall_cons in Hrs as [-> Hrs].
    simpl. unfold bind at 1. rewrite Hc. simpl. eauto.
Qed.

Lemma orChildren_completes data children w rs w1 :
  evaluateAll children data w = (Returned rs, w1) ->
  Forall (fun r => r = false) rs ->
  orChildren (fun c => EvaluateCondition c data) children w = (Returned false, w1).
Proof.
  revert w rs. induction children as [|c children IH]; intros w rs Hall Hrs.
  - by injection Hall as <- <-.
  - apply evaluateAll_cons_inv in Hall as (r & rs' & w' & Hc & Hall & ->).
    apply Forall_cons in Hrs as [-> Hrs].
    simpl. unfold bind at 1. rewrite Hc. simpl. eauto.
Qed.

Lemma evaluateAll_snoc data pre child w rs w1 r w2 :
  evaluateAll pre data w = (Returned rs, w1) ->
  EvaluateCondition child data w1 = (Returned r, w2) ->
  evaluateAll (pre ++ [child]) data w = (Returned (rs ++ [r]), w2).
Proof.
  revert w rs. induction pre as [|c pre IH]; intros w rs Hpre Hchild.
  - injection Hpre as <- <-. simpl. unfold bind, ret. by rewrite Hchild.
  - apply evaluateAll_cons_inv in Hpre as (r' & rs' & w' & Hc & Hpre & ->).
    simpl. unfold bind at 1. rewrite Hc.
    fold (evaluateAll (pre ++ [child]) data).
    unfold bind, ret. by rewrite (IH w' rs' Hpre Hchild).
Qed.

(** C4. A Group folds its children in list order, the world of one child
    being the world the next one starts from. [stop] is the result that
    ends the fold: false in an AND group, true in an OR group. When the
    children before [child] evaluate to the other result and [child]
    evaluates to [stop], the group evaluates to [stop] in the world [child]
    left: no child of [post] is evaluated, so none of its validators is
    invoked. When no child stops the fold, the group is the other result. *)
Theorem group_short_circuit cond data pre child post w rs w1 r w2 :
  let stop := String.eqb (cLogic cond) LogicOr in
  cLogic cond = LogicAnd \/ cLogic cond = LogicOr ->
  cChildren cond = pre ++ child :: post ->
  evaluateAll pre data w = (Returned rs, w1) ->
  Forall (fun x => x = negb stop) rs ->
  EvaluateCondition child data w1 = (Returned r, w2) ->
  (r = stop -> EvaluateCondition cond data w = (Returned stop, w2))
  /\ (r = negb stop -> post = [] ->
      EvaluateCondition cond data w = (Returned (negb stop), w2)).
Proof.
  intros stop Hlogic Hchildren Hpre Hrs Hchild.
  rewrite EvaluateCondition_unfold. cbv zeta. rewrite Hchildren.
  replace (0 <? length (pre ++ child :: post))%nat with true
    by (by destruct pre).
  subst stop.
  destruct Hlogic as [Hl|Hl]; rewrite Hl in *; simpl in *; split.
  - intros ->. by eapply andChildren_stops.
  - intros -> ->. eapply andChildren_completes.
    + by eapply evaluateAll_snoc.
    + apply Forall_app. split; [done | by constructor].
  - intros ->. by eapply orChildren_stops.
  - intros -> ->. eapply orChildren_completes.
    + by eapply evaluateAll_snoc.
    + apply Forall_app. split; [done | by constructor].
Qed.

(** ** The chain as a left fold *)

Lemma applyLogic_connective prevLogic result current :
  applyLogic prevLogic result current = connective prevLogic result current.
Proof. reflexivity. Qed.

Lemma evaluateLinks_runs reg data links :
  exists rs t, runs (evaluateLinks links data) reg rs t.
Proof.
  induction links as [|c links (rs & t' & Hrs)]; simpl.
  - eauto using runs_ret.
  - destruct (evaluateConditionWithLogic_runs reg data c) as (r & t & Hc).
    exists (r :: rs), (t ++ (t' ++ [])).
    eapply runs_bind; [exact Hc |].
    eapply runs_bind; [exact Hrs | apply runs_ret].
Qed.

Lemma evaluateLinks_cons_inv link rest data w rs w1 :
  evaluateLinks (link :: rest) data w = (Returned rs, w1) ->
  exists r rs' w',
    evaluateConditionWithLogic link data w = (Returned r, w')
    /\ evaluateLinks rest data w' = (Returned rs', w1)
    /\ rs = r :: rs'.
Proof.
  simpl. unfold bind, ret.
  destruct (evaluateConditionWithLogic link data w) as [[r|msg] w']; [| done].
  destruct (evaluateLinks rest data w') as [[rs'|msg] w''] eqn:Hrest; [| done].
  intros [= <- <-]. by exists r, rs', w'.
Qed.

Lemma evaluateLinks_length data links w rs w' :
  evaluateLinks links data w = (Returned rs, w') -> length rs = length links.
Proof.
  revert w rs. induction links as [|c links IH]; intros w rs Hrs.
  - by injection Hrs as <- _.
  - apply evaluateLinks_cons_inv in Hrs as (r & rs' & w1 & _ & Hrs & ->).
    simpl. f_equal. by eapply IH.
Qed.

Lemma chainLoop_fold data rest prev result w rs w' :
  evaluateLinks rest data w = (Returned rs, w') ->
  chainLoop (fun c => evaluateConditionWithLogic c data) prev result rest w
  = (Returned
       (fold_left
          (fun result '(previous, current) =>
             connective (lNextLogic previous) result current)
          (zip (prev :: rest) rs) result),
     w').
Proof.
  revert prev result w rs.
  induction rest as [|c rest IH]; intros prev result w rs Hrest.
  - by injection Hrest as <- <-.
  - apply evaluateLinks_cons_inv in Hrest as (r & rs' & w1 & Hc & Hrest & ->).
    simpl. unfold bind at 1. rewrite Hc.
    rewrite applyLogic_connective. by apply IH.
Qed.

(** C5. The chain evaluator evaluates every link, in list order, and its
    result is the left fold of the results: the result of link 0, combined
    with the result of each later link by the [next_logic] of the link
    before it (AND: conjunction; OR: disjunction; anything else: as AND).
    The world it leaves is the world after all the links: no link is
    skipped. The empty chain is true. *)
Theorem chain_is_left_fold group data w :
  (gConditions group = [] ->
     EvaluateConditionGroup group data w = (Returned true, w))
  /\ exists rs w',
       evaluateLinks (gConditions group) data w = (Returned rs, w')
       /\ length rs = length (gConditions group)
       /\ EvaluateConditionGroup group data w
          = (Returned (chainFold (gConditions group) rs), w').
Proof.
  rewrite EvaluateConditionGroup_unfold. split.
  - by intros ->.
  - destruct (evaluateLinks_runs (customOperators w) data (gConditions group))
      as (rs & t & Hrs).
    apply runs_at in Hrs.
    remember (mkWorld (customOperators w) (log w ++ t)) as w' eqn:Hw'.
    clear Hw'. exists rs, w'.
    split; [exact Hrs |]. split; [by eapply evaluateLinks_length |].
    destruct (gConditions group) as [|first rest].
    + by injection Hrs as <- <-.
    + apply evaluateLinks_cons_inv in Hrs as (r & rs' & w1 & Hfirst & Hrest & ->).
      unfold bind. rewrite Hfirst. by apply chainLoop_fold.
Qed.

(** ** The conversion bridge *)

Lemma treeValue_runs reg data c :
  exists t, runs (EvaluateCondition c data) reg (treeValue reg data c) t.
Proof.
  destruct (EvaluateCondition_runs reg data c) as (b & t & H).
  exists t. unfold treeValue. by rewrite (H []).
Qed.

Lemma runs_value {A} (m : M A) reg a t w :
  runs m reg a t -> customOperators w = reg -> fst (m w) = Returned a.
Proof. intros H <-. by rewrite (runs_at m w a t H). Qed.

Lemma wellFormed_unfold c :
  wellFormed c
  = ((isGroupNode c && String.eqb (cKey c) "")
     || (isLeafNode c && negb (isGroupNode c)))
    && forallb wellFormed (cChildren c).
Proof. by destruct c. Qed.

Lemma ConvertToConditionGroup_unfold conditions :
  ConvertToConditionGroup conditions
  = if negb (String.eqb (cKey conditions) "") then
      mkConditionGroup
        [mkConditionWithLogic (cKey conditions) (cOperator conditions)
                              (cValue conditions) None ""]
    else if (length (cChildren conditions) =? 0)%nat then mkConditionGroup []
    else
      mkConditionGroup
        (convertChildren ConvertToConditionGroup (cLogic conditions)
                         (length (cChildren conditions)) 0%nat
                         (cChildren conditions)).
Proof. by destruct conditions. Qed.

(** A node that is a Leaf and not a Group is evaluated as a single
    condition. *)
Lemma EvaluateCondition_leaf c data :
  isLeafNode c = true -> isGroupNode c = false ->
  EvaluateCondition c data
  = evalSingleCondition (cKey c) (cOperator c) (cValue c) data.
Proof.
  unfold isLeafNode, isGroupNode. intros Hleaf Hgroup.
  rewrite EvaluateCondition_unfold. cbv zeta. rewrite Hleaf.
  destruct (negb (String.eqb (cLogic c) "") && _) eqn:Htest; [| done].
  apply andb_true_iff in Htest as [_ Hlen].
  replace (negb (length (cChildren c) =? 0)%nat) with true in Hgroup
    by (by destruct (cChildren c)).
  rewrite andb_true_r in Hgroup. apply orb_false_iff in Hgroup as [Hand Hor].
  unfold switch. by rewrite Hand, Hor.
Qed.

Lemma andChildren_value (eval : Conditions -> M bool) (val : Conditions -> bool)
    reg children :
  Forall (fun c => exists t, runs (eval c) reg (val c) t) children ->
  exists t, runs (andChildren eval children) reg (forallb val children) t.
Proof.
  induction 1 as [|c rest [t Hc] _ [t' Hrest]]; simpl.
  - eauto using runs_ret.
  - destruct (val c) eqn:Hval.
    + exists (t ++ t'). eapply runs_bind; [exact Hc | exact Hrest].
    + exists (t ++ []). eapply runs_bind; [exact Hc | apply runs_ret].
Qed.

Lemma orChildren_value (eval : Conditions -> M bool) (val : Conditions -> bool)
    reg children :
  Forall (fun c => exists t, runs (eval c) reg (val c) t) children ->
  exists t, runs (orChildren eval children) reg (existsb val children) t.
Proof.
  induction 1 as [|c rest [t Hc] _ [t' Hrest]]; simpl.
  - eauto using runs_ret.
  - destruct (val c) eqn:Hval.
    + exists (t ++ []). eapply runs_bind; [exact Hc | apply runs_ret].
    + exists (t ++ t'). eapply runs_bind; [exact Hc | exact Hrest].
Qed.

(** The value of a Group with logic AND or OR. *)
Lemma treeValue_group reg data c :
  isGroupNode c = true ->
  treeValue reg data c
  = if String.eqb (cLogic c) LogicAnd
    then forallb (treeValue reg data) (cChildren c)
    else existsb (treeValue reg data) (cChildren c).
Proof.
  unfold isGroupNode. intros [Hlogic Hlen]%andb_true_iff.
  assert (Forall (fun ch => exists t,
            runs (EvaluateCondition ch data) reg (treeValue reg data ch) t)
            (cChildren c)) as Hchildren.
  { apply Forall_forall. intros ch _. apply treeValue_runs. }
  assert (forall b t, runs (EvaluateCondition c data) reg b t ->
            treeValue reg data c = b) as Hval.
  { intros b t H. unfold treeValue. by rewrite (H []). }
  rewrite EvaluateCondition_unfold in Hval. cbv zeta in Hval.
  replace (0 <? length (cChildren c))%nat with true in Hval
    by (by destruct (cChildren c)).
  unfold switch in Hval.
  destruct (String.eqb (cLogic c) LogicAnd) eqn:Hand.
  - apply String.eqb_eq in Hand. rewrite Hand in Hval. simpl in Hval.
    destruct (andChildren_value _ _ reg _ Hchildren) as [t Ht]. eauto.
  - simpl in Hlogic. rewrite Hlogic in Hval.
    apply String.eqb_eq in Hlogic. rewrite Hlogic in Hval. simpl in Hval.
    destruct (orChildren_value _ _ reg _ Hchildren) as [t Ht]. eauto.
Qed.

(** The link the bridge makes of a child evaluates to what the child
    evaluates to, once the conversion of the child does. *)
Lemma converted_child_runs reg data child nextLogic :
  wellFormed child = true ->
  (exists t, runs (EvaluateConditionGroup (ConvertToConditionGroup child) data)
                  reg (treeValue reg data child) t) ->
  exists t,
    runs (evaluateConditionWithLogic
            (if negb (String.eqb (cKey child) "") then
               mkConditionWithLogic (cKey child) (cOperator child) (cValue child)
                                    None nextLogic
             else
               mkConditionWithLogic "" "" VNil
                                    (Some (ConvertToConditionGroup child))
                                    nextLogic) data)
         reg (treeValue reg data child) t.
Proof.
  intros Hwf IH. destruct (String.eqb (cKey child) "") eqn:Hkey; cbn [negb];
    rewrite evaluateConditionWithLogic_unfold; cbn [lGroup lKey lOperator lValue].
  - exact IH.
  - rewrite wellFormed_unfold, Hkey in Hwf.
    rewrite andb_false_r in Hwf. simpl in Hwf.
    apply andb_true_iff in Hwf as [[Hleaf Hgroup%negb_true_iff]%andb_true_iff _].
    rewrite <- (EvaluateCondition_leaf child data Hleaf Hgroup).
    apply treeValue_runs.
Qed.

Lemma chainLoop_converted reg data logic n children :
  Forall (fun c =>
            wellFormed c = true /\
            exists t, runs (EvaluateConditionGroup (ConvertToConditionGroup c) data)
                           reg (treeValue reg data c) t) children ->
  forall i prev result,
    n = (i + length children)%nat ->
    (children <> [] -> lNextLogic prev = logic) ->
    exists t,
      runs (chainLoop (fun c => evaluateConditionWithLogic c data) prev result
              (convertChildren ConvertToConditionGroup logic n i children))
           reg
           (fold_left (fun acc c => connective logic acc (treeValue reg data c))
                      children result)
           t.
Proof.
  induction 1 as [|c rest [Hwf Hc] _ IH]; intros i prev result Hn Hprev; simpl.
  - eauto using runs_ret.
  - destruct (converted_child_runs reg data c
                (if (i <? n - 1)%nat then logic else "") Hwf Hc) as [t Ht].
    rewrite Hprev by done.
    set (link := if negb (String.eqb (cKey c) "") then _ else _) in *.
    destruct (IH (S i) link (connective logic result (treeValue reg data c)))
      as [t' Ht'].
    { simpl in Hn. lia. }
    { intros Hrest.
      assert ((i <? n - 1)%nat = true) as Hlast.
      { apply Nat.ltb_lt. destruct rest; simpl in Hn; [done | lia]. }
      subst link. rewrite Hlast. by destruct (String.eqb (cKey c) ""). }
    exists (t ++ t'). eapply runs_bind; [exact Ht | exact Ht'].
Qed.

Lemma fold_connective_and (val : Conditions -> bool) children result :
  fold_left (fun acc c => connective LogicAnd acc (val c)) children result
  = result && forallb val children.
Proof.
  revert result. induction children as [|c rest IH]; intros result; simpl.
  - by rewrite andb_true_r.
  - rewrite IH. unfold connective. simpl. by rewrite andb_assoc.
Qed.

Lemma fold_connective_or (val : Conditions -> bool) children result :
  fold_left (fun acc c => connective LogicOr acc (val c)) children result
  = result || existsb val children.
Proof.
  revert result. induction children as [|c rest IH]; intros result; simpl.
  - by rewrite orb_false_r.
  - rewrite IH. unfold connective. simpl. by rewrite orb_assoc.
Qed.

Lemma converted_runs reg data t :
  wellFormed t = true ->
  exists tr, runs (EvaluateConditionGroup (ConvertToConditionGroup t) data)
                  reg (treeValue reg data t) tr.
Proof.
  induction t as [l ch k o v IH] using Conditions_nested_ind. intros Hwf.
  pose proof Hwf as Hwf'. rewrite wellFormed_unfold in Hwf'.
  cbn [cKey cChildren] in Hwf'.
  apply andb_true_iff in Hwf' as [Hnode Hchildren].
  rewrite ConvertToConditionGroup_unfold. cbn [cKey cChildren cOperator cValue cLogic].
  destruct (String.eqb k "") eqn:Hkey; simpl negb; cbv iota.
  - (* a Group *)
    rewrite andb_true_r in Hnode.
    replace (isLeafNode (mkConditions l ch k o v)) with false in Hnode
      by (unfold isLeafNode; simpl; by rewrite Hkey).
    rewrite orb_false_r in Hnode.
    rewrite (treeValue_group reg data _ Hnode). cbn [cLogic cChildren].
    unfold isGroupNode in Hnode. cbn [cLogic cChildren] in Hnode.
    apply andb_true_iff in Hnode as [Hlogic Hlen].
    destruct ch as [|c0 rest]; [done |]. simpl length. simpl Nat.eqb. cbv iota.
    apply Forall_cons in IH as [IH0 IHrest].
    simpl in Hchildren. apply andb_true_iff in Hchildren as [Hwf0 Hwfrest].
    rewrite EvaluateConditionGroup_unfold. simpl gConditions.
    cbn [convertChildren].
    destruct (converted_child_runs reg data c0
                (if (0 <? S (length rest) - 1)%nat then l else "")
                Hwf0 (IH0 Hwf0)) as [t0 Ht0].
    set (link := if negb (String.eqb (cKey c0) "") then _ else _) in *.
    destruct (chainLoop_converted reg data l (S (length rest)) rest)
      with (i := 1%nat) (prev := link) (result := treeValue reg data c0)
      as [t1 Ht1].
    + apply Forall_forall. intros c Hc. split.
      * rewrite forallb_forall in Hwfrest. apply Hwfrest. by apply list_elem_of_In.
      * rewrite Forall_forall in IHrest. apply IHrest; [done |].
        rewrite forallb_forall in Hwfrest. apply Hwfrest. by apply list_elem_of_In.
    + reflexivity.
    + intros Hrest. subst link.
      destruct (String.eqb (cKey c0) ""); simpl; by destruct rest.
    + exists (t0 ++ t1).
      assert (fold_left
                (fun acc c => connective l acc (treeValue reg data c))
                rest (treeValue reg data c0)
              = if String.eqb l LogicAnd
                then forallb (treeValue reg data) (c0 :: rest)
                else existsb (treeValue reg data) (c0 :: rest)) as <-.
      { destruct (String.eqb l LogicAnd) eqn:Hand.
        - apply String.eqb_eq in Hand. subst l. apply fold_connective_and.
        - simpl in Hlogic. apply String.eqb_eq in Hlogic. subst l.
          apply fold_connective_or. }
      eapply runs_bind; [exact Ht0 | exact Ht1].
  - (* a Leaf *)
    rewrite andb_false_r in Hnode. simpl in Hnode.
    apply andb_true_iff in Hnode as [Hleaf Hgroup%negb_true_iff].
    rewrite EvaluateConditionGroup_unfold. cbn [gConditions].
    rewrite (evaluateConditionWithLogic_unfold
               (mkConditionWithLogic k o v None "") data).
    cbn [lGroup lKey lOperator lValue chainLoop].
    destruct (treeValue_runs reg data (mkConditions l ch k o v)) as [tr Htr].
    rewrite (EvaluateCondition_leaf _ data Hleaf Hgroup) in Htr.
    exists (tr ++ []). eapply runs_bind; [exact Htr | apply runs_ret].
Qed.

(** With validators that are functions of their two arguments, evaluating
    the converted chain of a well-formed tree returns what evaluating the
    tree returns, for every data record and registry. *)
Theorem conversion_preserves_evaluation t data w :
  wellFormed t = true ->
  fst (EvaluateConditionGroup (ConvertToConditionGroup t) data w)
  = fst (EvaluateCondition t data w).
Proof.
  intros Hwf.
  destruct (converted_runs (customOperators w) data t Hwf) as [tr Htr].
  destruct (treeValue_runs (customOperators w) data t) as [tr' Htr'].
  by rewrite (runs_value _ _ _ _ w Htr), (runs_value _ _ _ _ w Htr').
Qed.

End Properties.

(** * Closed instances *)

Section Instances.
#[local] Existing Instance exampleLib.

(** A usage scenario, on the record [person]. *)
Example age_above_18 :
  fst (EvaluateCondition (NewSimpleCondition "age" OperatorGt (VInt KInt 18))
                         person emptyWorld) = Returned true.
Proof. reflexivity. Qed.

Example adult_in_singapore_is_false :
  fst (EvaluateCondition
         (NewAndGroup
            [ NewSimpleCondition "age" OperatorGt (VInt KInt 18);
              NewSimpleCondition "country" OperatorEq (VString "SG") ])
         person emptyWorld) = Returned false.
Proof. reflexivity. Qed.

Example chain_with_or_is_true :
  fst (EvaluateConditionGroup
         (NewConditionGroup
            [ NewConditionWithLogic "age" OperatorGt (VInt KInt 30) LogicOr;
              NewConditionWithLogic "country" OperatorEq (VString "TH") "" ])
         person emptyWorld) = Returned true.
Proof. reflexivity. Qed.

Example between_is_inclusive :
  between (VInt KInt 25) (VSlice [VInt KInt 25; VInt KInt 30]) = true
  /\ between (VInt KInt 30) (VSlice [VInt KInt 25; VInt KInt 30]) = true
  /\ between (VInt KInt 31) (VSlice [VInt KInt 25; VInt KInt 30]) = false.
Proof. repeat split. Qed.

(** The chain evaluator does not stop early: with a first link that is
    false and the connective AND, the second link is evaluated and its
    validator invoked; the panic is contained. *)
Example chain_evaluates_every_link :
  EvaluateConditionGroup
    (NewConditionGroup
       [ NewConditionWithLogic "age" OperatorIsnotnull VNil LogicAnd;
         NewConditionWithLogic "age" "boom" VNil "" ])
    noData boomWorld
  = (Returned false,
     logged boomWorld
            [ LeafEvaluated "age" OperatorIsnotnull VNil;
              LeafEvaluated "age" "boom" VNil;
              ValidatorInvoked "boom" VNil VNil ]).
Proof. reflexivity. Qed.

Lemma conversion_preserves_evaluation_witness :
  wellFormed adultInRegion = true
  /\ fst (EvaluateConditionGroup (ConvertToConditionGroup adultInRegion)
                                 person emptyWorld)
     = fst (EvaluateCondition adultInRegion person emptyWorld).
Proof.
  split; [reflexivity |].
  apply (conversion_preserves_evaluation adultInRegion person emptyWorld).
  reflexivity.
Defined.

(** C2: the claim as stated fails. [RegisterCustomOperator] stores a
    validator under the built-in identifier [==]; with the key absent, the
    leaf is then what the validator returns, not the false of the built-in
    operator. *)
Lemma builtin_identifier_overridden :
  inList OperatorEq builtinOperators = true
  /\ customOperators eqRegistered !! OperatorEq = Some alwaysTrue
  /\ fst (evalSingleCondition "age" OperatorEq (VInt KInt 1) noData emptyWorld)
     = Returned false
  /\ evalSingleCondition "age" OperatorEq (VInt KInt 1) noData eqRegistered
     = (Returned true,
        logged eqRegistered
               [LeafEvaluated "age" OperatorEq (VInt KInt 1);
                ValidatorInvoked OperatorEq VNil (VInt KInt 1)]).
Proof. repeat split. Qed.

Lemma builtin_semantics_registry_independent_witness :
  inList OperatorGt builtinOperators = true
  /\ (is_Some (person !! "age") \/ inList OperatorGt stateOperators = true)
  /\ exists b, forall w',
       evalSingleCondition "age" OperatorGt (VInt KInt 18) person w'
       = (Returned b, logged w' [LeafEvaluated "age" OperatorGt (VInt KInt 18)]).
Proof.
  assert (is_Some (person !! "age") \/ inList OperatorGt stateOperators = true)
    as Hpresent by (left; by eexists).
  split; [reflexivity |]. split; [exact Hpresent |].
  apply (builtin_semantics_registry_independent
           "age" OperatorGt (VInt KInt 18) person alwaysTrue emptyWorld
           eq_refl Hpresent).
Defined.

Lemma group_short_circuit_witness :
  EvaluateCondition falseThenPanicking noData boomWorld
  = (Returned false,
     logged boomWorld [LeafEvaluated "age" OperatorIsnotnull VNil]).
Proof.
  refine (proj1 (group_short_circuit falseThenPanicking noData
                   [] (NewSimpleCondition "age" OperatorIsnotnull VNil)
                   [NewSimpleCondition "age" "boom" VNil]
                   boomWorld [] boomWorld false _ _ _ _ _ _) eq_refl).
  - left. reflexivity.
  - reflexivity.
  - reflexivity.
  - constructor.
  - reflexivity.
Defined.

Lemma chain_is_left_fold_witness :
  EvaluateConditionGroup (mkConditionGroup []) person emptyWorld
  = (Returned true, emptyWorld).
Proof.
  exact (proj1 (chain_is_left_fold (mkConditionGroup []) person emptyWorld)
               eq_refl).
Defined.

Lemma absent_key_semantics_witness :
  noData !! "age" = None
  /\ evalSingleCondition "age" OperatorIsnull VNil noData alwaysWorld
     = (Returned true,
        logged alwaysWorld [LeafEvaluated "age" OperatorIsnull VNil])
  /\ evalSingleCondition "age" "always" (VInt KInt 1) noData alwaysWorld
     = (Returned true,
        logged alwaysWorld
               [LeafEvaluated "age" "always" (VInt KInt 1);
                ValidatorInvoked "always" VNil (VInt KInt 1)]).
Proof.
  split; [reflexivity |]. split.
  - exact (proj1 (absent_key_semantics "age" OperatorIsnull VNil noData
                    alwaysWorld eq_refl) eq_refl).
  - destruct (absent_key_semantics "age" "always" (VInt KInt 1) noData
                alwaysWorld eq_refl)
      as (_ & _ & _ & _ & _ & _ & Hcustom & _).
    exact (Hcustom eq_refl alwaysTrue eq_refl).
Defined.

Lemma degenerate_node_is_true_witness :
  isValidGroup degenerateNode = false
  /\ isValidLeaf degenerateNode = false
  /\ EvaluateCondition degenerateNode person emptyWorld
     = (Returned true, emptyWorld).
Proof.
  split; [reflexivity |]. split; [reflexivity |].
  exact (degenerate_node_is_true degenerateNode person emptyWorld
           eq_refl eq_refl).
Defined.

Lemma flexible_other_type_is_false_witness :
  isConditionType (dynamicType (DynAny (VString "age > 18"))) = false
  /\ isConditionType (dynamicType (DynAny VNil)) = false
  /\ EvaluateFlexibleCondition (DynAny (VString "age > 18")) person emptyWorld
     = (Returned false, emptyWorld)
  /\ EvaluateFlexibleCondition (DynAny VNil) person emptyWorld
     = (Returned false, emptyWorld).
Proof.
  split; [reflexivity |]. split; [reflexivity |]. split.
  - exact (flexible_other_type_is_false (DynAny (VString "age > 18"))
             person emptyWorld eq_refl).
  - exact (flexible_other_type_is_false (DynAny VNil) person emptyWorld eq_refl).
Defined.

End Instances.

(** * Further properties *)

Section FurtherProperties.
Context {lib : GoLib}.
Implicit Types (reg : gmap Operator CustomOperatorValidator).
Implicit Types (data : gmap string any) (w : World).
Implicit Types (op : Operator) (f : CustomOperatorValidator) (key : string).

(** ** Comparison of numbers *)

Lemma SFcompare_antisym a b :
  SFcompare b a = option_map CompOpp (SFcompare a b).
Proof.
  destruct a as [[]|[]| |[] ma ea], b as [[]|[]| |[] mb eb]; simpl;
    try reflexivity; f_equal;
    rewrite (Z.compare_antisym ea eb); destruct (ea ?= eb)%Z; simpl; try done;
    change (Pos.compare_cont Eq mb ma) with (mb ?= ma)%positive;
    change (Pos.compare_cont Eq ma mb) with (ma ?= mb)%positive;
    rewrite (Pos.compare_antisym ma mb); by destruct (ma ?= mb)%positive.
Qed.

Lemma float_ltb_asym (x y : float) :
  PrimFloat.ltb x y = true -> PrimFloat.ltb y x = false.
Proof.
  rewrite !ltb_spec. unfold SFltb.
  rewrite (SFcompare_antisym (Prim2SF x) (Prim2SF y)).
  by destruct (SFcompare (Prim2SF x) (Prim2SF y)) as [[]|].
Qed.

Lemma float_ltb_irrefl (x : float) : PrimFloat.ltb x x = false.
Proof.
  destruct (PrimFloat.ltb x x) eqn:H; [| done].
  by rewrite (float_ltb_asym x x H) in H.
Qed.

Lemma string_ltb_asym (s1 s2 : string) :
  String.ltb s1 s2 = true -> String.ltb s2 s1 = false.
Proof.
  unfold String.ltb. rewrite (String.compare_antisym s1 s2).
  by destruct (String.compare s2 s1).
Qed.

Lemma string_ltb_irrefl (s : string) : String.ltb s s = false.
Proof.
  destruct (String.ltb s s) eqn:H; [| done].
  by rewrite (string_ltb_asym s s H) in H.
Qed.

(** X1. [compareValues] returns -1, 0 or 1, and swapping its arguments
    negates the result, whatever tier of coercion decides. *)
Theorem compareValues_antisymmetric v1 v2 :
  (compareValues v1 v2 = -1 \/ compareValues v1 v2 = 0
   \/ compareValues v1 v2 = 1)%Z
  /\ (compareValues v2 v1 = - compareValues v1 v2)%Z.
Proof.
  unfold compareValues.
  destruct (toNumber v1) as [n1|], (toNumber v2) as [n2|].
  - destruct (PrimFloat.ltb n1 n2) eqn:H12.
    + rewrite (float_ltb_asym _ _ H12). auto.
    + destruct (PrimFloat.ltb n2 n1); auto.
  - destruct (toTime v1) as [t1|], (toTime v2) as [t2|];
      try (destruct (String.ltb (toString v1) (toString v2)) eqn:H12;
           [rewrite (string_ltb_asym _ _ H12); by auto |
            destruct (String.ltb (toString v2) (toString v1)); by auto]).
    destruct (Z.ltb_spec t1 t2), (Z.ltb_spec t2 t1); auto; lia.
  - destruct (toTime v1) as [t1|], (toTime v2) as [t2|];
      try (destruct (String.ltb (toString v1) (toString v2)) eqn:H12;
           [rewrite (string_ltb_asym _ _ H12); by auto |
            destruct (String.ltb (toString v2) (toString v1)); by auto]).
    destruct (Z.ltb_spec t1 t2), (Z.ltb_spec t2 t1); auto; lia.
  - destruct (toTime v1) as [t1|], (toTime v2) as [t2|];
      try (destruct (String.ltb (toString v1) (toString v2)) eqn:H12;
           [rewrite (string_ltb_asym _ _ H12); by auto |
            destruct (String.ltb (toString v2) (toString v1)); by auto]).
    destruct (Z.ltb_spec t1 t2), (Z.ltb_spec t2 t1); auto; lia.
Qed.

Lemma compareValues_refl v : compareValues v v = 0%Z.
Proof.
  unfold compareValues. destruct (toNumber v) as [n|].
  - by rewrite float_ltb_irrefl.
  - destruct (toTime v) as [t|].
    + by rewrite Z.ltb_irrefl.
    + by rewrite string_ltb_irrefl.
Qed.

(** X2. [between] is inclusive at both ends: a non-nil value lies between
    itself and any bound it does not exceed, and between any bound it is
    not below and itself. Bounds that are not a slice of exactly two
    elements make [between] false. *)
Theorem between_inclusive v :
  isNil v = false ->
  (forall hi, between v (VSlice [v; hi]) = (compareValues v hi <=? 0)%Z)
  /\ (forall lo, between v (VSlice [lo; v]) = (compareValues v lo >=? 0)%Z)
  /\ between v (VSlice [v; v]) = true
  /\ (forall l, length l <> 2%nat -> between v (VSlice l) = false)
  /\ (forall bounds, (forall l, bounds <> VSlice l) -> between v bounds = false).
Proof.
  intros Hv. unfold between. rewrite Hv. simpl. repeat split.
  - intros hi. by rewrite compareValues_refl.
  - intros lo. rewrite compareValues_refl. by rewrite andb_true_r.
  - by rewrite compareValues_refl.
  - intros [|a [|b [|c l]]] Hlen; simpl in *; done.
  - intros bounds Hb. destruct bounds; try done. by destruct (Hb l).
Qed.

(** ** The registry *)

(** X3. Registration with a validator never panics: it makes the validator
    the entry of its identifier, leaves every other entry and the log as
    they were, and replaces an earlier entry of the same identifier.
    Registration with a nil validator panics before the registry is
    touched. *)
Theorem register_then_lookup operator f w :
  (exists w',
     RegisterCustomOperator operator (Some f) w = (Returned tt, w')
     /\ customOperators w' !! operator = Some f
     /\ (forall other, other <> operator ->
          customOperators w' !! other = customOperators w !! other)
     /\ log w' = log w
     /\ (forall g,
          snd (RegisterCustomOperator operator (Some g) w')
          = snd (RegisterCustomOperator operator (Some g) w)))
  /\ RegisterCustomOperator operator None w
     = (Panicked "custom operator validator cannot be nil", w).
Proof.
  split; [| done]. eexists. split; [reflexivity |]. simpl. repeat split.
  - apply lookup_insert_eq.
  - intros other Hne. by apply lookup_insert_ne.
  - intros g. by rewrite insert_insert_eq.
Qed.

(** X4. Unregistering removes the entry of its identifier and nothing
    else. On a world where the identifier has no entry it changes nothing,
    and it undoes a registration made on such a world. *)
Theorem unregister_undoes_register operator f w :
  customOperators (snd (UnregisterCustomOperator operator w)) !! operator = None
  /\ (forall other, other <> operator ->
      customOperators (snd (UnregisterCustomOperator operator w)) !! other
      = customOperators w !! other)
  /\ (customOperators w !! operator = None ->
      UnregisterCustomOperator operator w = (Returned tt, w)
      /\ snd (UnregisterCustomOperator operator
                (snd (RegisterCustomOperator operator (Some f) w))) = w).
Proof.
  destruct w as [reg l]. simpl. repeat split.
  - apply lookup_delete_eq.
  - intros other Hne. by apply lookup_delete_ne.
  - unfold UnregisterCustomOperator. simpl. by rewrite delete_id.
  - by rewrite delete_insert_id.
Qed.

(** X5. [GetRegisteredCustomOperators] returns each registered identifier
    exactly once and nothing else, and leaves the world as it is. *)
Theorem registered_operators_listed w :
  exists ops,
    GetRegisteredCustomOperators w = (Returned ops, w)
    /\ NoDup ops
    /\ (forall op, op ∈ ops <-> is_Some (customOperators w !! op))
    /\ length ops = size (customOperators w).
Proof.
  eexists. split; [reflexivity |]. repeat split.
  - apply NoDup_fst_map_to_list.
  - intros Hin. apply list_elem_of_fmap in Hin as ([op' f] & -> & Hin).
    apply elem_of_map_to_list in Hin. by eexists.
  - intros [f Hf]. apply list_elem_of_fmap. exists (op, f).
    split; [done |]. by apply elem_of_map_to_list.
  - by rewrite length_fmap, length_map_to_list.
Qed.

(** ** Operators of the single-condition evaluator *)

(** X6. An operator that is not built-in is decided by the registry alone,
    whether the key is present or not: a registered validator is invoked
    once, with the field value (nil for an absent key) and the condition's
    value, and the leaf is what it returns, false if it panics; an
    identifier without an entry makes the leaf false and invokes nothing. *)
Theorem custom_operator_semantics key op value data w :
  inList op builtinOperators = false ->
  evalSingleCondition key op value data w
  = match customOperators w !! op with
    | Some f =>
        (Returned (contained (f (default VNil (data !! key)) value)),
         logged w [LeafEvaluated key op value;
                   ValidatorInvoked op (default VNil (data !! key)) value])
    | None => (Returned false, logged w [LeafEvaluated key op value])
    end.
Proof.
  intros Hop. unfold evalSingleCondition.
  unfold inList, builtinOperators in Hop. rewrite existsb_app in Hop.
  apply orb_false_iff in Hop as [Hstate Hcmp].
  rewrite (switch_miss op) by exact Hstate.
  rewrite (switch_miss op) by exact Hcmp.
  destruct (customOperators w !! op) as [f|] eqn:Hf.
  - apply (runs_at _ w _
             ([LeafEvaluated key op value]
              ++ [ValidatorInvoked op (default VNil (data !! key)) value])).
    eapply runs_bind; [apply runs_record |].
    destruct (negb _); by apply runs_callCustom_registered.
  - apply (runs_at _ w _ ([LeafEvaluated key op value] ++ [])).
    eapply runs_bind; [apply runs_record |].
    destruct (negb _); by apply runs_callCustom_unregistered.
Qed.

Ltac each_pair H :=
  simpl in H;
  repeat (destruct H as [H|H]; [injection H as <- <- |]);
  [.. | done].

(** X7. When the key is present, each negated operator ([!=], [nin],
    [ncontains], [nlike], [notbetween]) is the complement of its positive
    operator, and [>=] and [<=] are the complements of [<] and [>]; the
    three pairs of existence/state operators are complementary for every
    data record. When the key is absent and neither identifier is
    registered, both operators of a pair are false: on a missing field
    [!=] is not the complement of [==]. *)
Theorem negated_operators key value data w :
  (forall op nop, In (op, nop) negatedStatePairs ->
     leafValue key nop value data w = negb (leafValue key op value data w))
  /\ (is_Some (data !! key) ->
      forall op nop, In (op, nop) negatedPairs ->
      leafValue key nop value data w = negb (leafValue key op value data w))
  /\ (data !! key = None ->
      forall op nop, In (op, nop) negatedPairs ->
      customOperators w !! op = None -> customOperators w !! nop = None ->
      leafValue key op value data w = false
      /\ leafValue key nop value data w = false).
Proof.
  unfold leafValue. split; [| split].
  - intros op nop Hin. each_pair Hin;
      unfold evalSingleCondition, bind, record; simpl; try done;
      by destruct (bool_decide _), (isNil _).
  - intros [x Hx] op nop Hin. each_pair Hin;
      unfold evalSingleCondition, bind, record; rewrite Hx; simpl; try done;
      set (c := compareValues x value);
      unfold Z.geb, Z.leb, Z.gtb, Z.ltb; by destruct (c ?= 0)%Z.
  - intros Hnone op nop Hin Hop Hnop. each_pair Hin;
      unfold evalSingleCondition, bind, record, callCustom, lookupOperator;
      rewrite Hnone; simpl; unfold bind; simpl; by rewrite Hop, Hnop.
Qed.

(** ** Equality and substrings *)

Lemma SFeqb_sym a b : SFeqb a b = SFeqb b a.
Proof.
  unfold SFeqb. rewrite (SFcompare_antisym a b).
  by destruct (SFcompare a b) as [[]|].
Qed.

Lemma float_eqb_sym (x y : float) : PrimFloat.eqb x y = PrimFloat.eqb y x.
Proof. rewrite !FloatAxioms.eqb_spec. apply SFeqb_sym. Qed.

(** X8. [isEqual] does not depend on the order of its operands, given that
    [reflect.DeepEqual] does not. *)
Theorem isEqual_symmetric v1 v2 :
  (forall a b, DeepEqual a b = DeepEqual b a) ->
  isEqual v1 v2 = isEqual v2 v1.
Proof.
  intros Hdeep. unfold isEqual.
  rewrite (andb_comm (isNil v2)), (orb_comm (isNil v2)), (Hdeep v2 v1).
  destruct (isNil v1 && isNil v2); [done |].
  destruct (isNil v1 || isNil v2); [done |].
  destruct (DeepEqual v1 v2); [done |].
  destruct (toNumber v1) as [n1|], (toNumber v2) as [n2|];
    try apply float_eqb_sym; apply String.eqb_sym.
Qed.

Lemma substring_Contains (sub : string) :
  forall s n,
    String.substring n (String.length sub) s = sub -> Contains s sub = true.
Proof.
  induction s as [|c rest IH]; intros n Hsub.
  - destruct n; simpl in Hsub.
    + destruct sub; [done | by destruct (String.length _)].
    + by subst sub.
  - destruct n as [|n].
    + apply String.prefix_correct in Hsub.
      unfold Contains; fold Contains. by rewrite Hsub.
    + simpl in Hsub. unfold Contains; fold Contains.
      rewrite (IH n Hsub). by rewrite orb_true_r.
Qed.

(** X9. Whenever [startswith] or [endswith] holds of a field and an
    argument, [contains] holds of them too; and [contains] holds of every
    non-nil field with the empty string as argument. *)
Theorem prefix_and_suffix_are_contained v arg :
  (startsWith v arg = true -> contains v arg = true)
  /\ (endsWith v arg = true -> contains v arg = true)
  /\ (isNil v = false -> contains v (VString "") = true).
Proof.
  unfold startsWith, endsWith, contains, HasPrefix, HasSuffix. repeat split.
  - destruct (isNil v || isNil arg); [done |]. intros Hpre.
    apply String.prefix_correct in Hpre. by eapply substring_Contains.
  - destruct (isNil v || isNil arg); [done |].
    intros [_ Hsuf%String.eqb_eq]%andb_true_iff.
    by eapply substring_Contains.
  - intros ->. simpl. by destruct (toString v).
Qed.

(** ** Values of groups and chains *)

Lemma chainValue_runs reg data g :
  exists t, runs (EvaluateConditionGroup g data) reg (chainValue reg data g) t.
Proof.
  destruct (EvaluateConditionGroup_runs reg data g) as (b & t & H).
  exists t. unfold chainValue. by rewrite (H []).
Qed.

Lemma linkValue_runs reg data l :
  exists t, runs (evaluateConditionWithLogic l data) reg (linkValue reg data l) t.
Proof.
  destruct (evaluateConditionWithLogic_runs reg data l) as (b & t & H).
  exists t. unfold linkValue. by rewrite (H []).
Qed.

Lemma treeValue_at reg data c w :
  customOperators w = reg ->
  fst (EvaluateCondition c data w) = Returned (treeValue reg data c).
Proof.
  intros Hw. destruct (treeValue_runs reg data c) as [t Ht].
  by eapply runs_value.
Qed.

Lemma chainValue_at reg data g w :
  customOperators w = reg ->
  fst (EvaluateConditionGroup g data w) = Returned (chainValue reg data g).
Proof.
  intros Hw. destruct (chainValue_runs reg data g) as [t Ht].
  by eapply runs_value.
Qed.

Lemma runs_contained (m : M bool) reg b t :
  runs m reg b t -> contained (fst (m (mkWorld reg []))) = b.
Proof. intros H. by rewrite (H []). Qed.

Lemma chainLoop_values reg data rest :
  forall prev result,
    exists t,
      runs (chainLoop (fun c => evaluateConditionWithLogic c data) prev result rest)
           reg
           (fold_left
              (fun result '(previous, current) =>
                 connective (lNextLogic previous) result current)
              (zip (prev :: rest) (map (linkValue reg data) rest)) result)
           t.
Proof.
  induction rest as [|c rest IH]; intros prev result; simpl.
  - eauto using runs_ret.
  - destruct (linkValue_runs reg data c) as [t Ht].
    destruct (IH c (connective (lNextLogic prev) result (linkValue reg data c)))
      as [t' Ht'].
    exists (t ++ t'). eapply runs_bind; [exact Ht | exact Ht'].
Qed.

Lemma chainValue_fold reg data links :
  chainValue reg data (mkConditionGroup links)
  = chainFold links (map (linkValue reg data) links).
Proof.
  destruct links as [|first rest].
  - reflexivity.
  - destruct (linkValue_runs reg data first) as [t Ht].
    destruct (chainLoop_values reg data rest first (linkValue reg data first))
      as [t' Ht'].
    unfold chainValue. apply (runs_contained _ reg _ (t ++ t')).
    rewrite EvaluateConditionGroup_unfold. cbn [gConditions].
    eapply runs_bind; [exact Ht | exact Ht'].
Qed.

Lemma chainFold_snoc (lv : ConditionWithLogic -> bool) init p l :
  chainFold (init ++ [p; l]) (map lv (init ++ [p; l]))
  = connective (lNextLogic p)
               (chainFold (init ++ [p]) (map lv (init ++ [p]))) (lv l).
Proof.
  destruct init as [|a init]; [reflexivity |].
  cbn [app map chainFold].
  replace (map lv (init ++ [p; l])) with (map lv (init ++ [p]) ++ [lv l])
    by (rewrite !map_app, <- app_assoc; reflexivity).
  replace (map lv (init ++ [p])) with (map lv (init ++ [p]) ++ []) at 2
    by apply app_nil_r.
  change (a :: init ++ [p; l]) with ((a :: init) ++ [p; l]).
  change (a :: init ++ [p]) with ((a :: init) ++ [p]).
  rewrite !zip_with_app by (rewrite length_map, length_app; simpl; lia).
  simpl. by rewrite fold_left_app, app_nil_r.
Qed.

Lemma EvaluateCondition_keyless_nongroup c data :
  cKey c = "" -> isGroupNode c = false ->
  EvaluateCondition c data = ret true.
Proof.
  unfold isGroupNode. intros Hkey Hgroup.
  rewrite EvaluateCondition_unfold. cbv zeta. rewrite Hkey. simpl.
  destruct (cChildren c) as [|c0 rest] eqn:Hch; simpl in *.
  - by rewrite andb_false_r.
  - rewrite andb_true_r in Hgroup. apply orb_false_iff in Hgroup as [-> ->].
    by destruct (negb _).
Qed.

Lemma andGroup_value reg data children w :
  customOperators w = reg ->
  fst (EvaluateCondition (NewAndGroup children) data w)
  = Returned (forallb (treeValue reg data) children).
Proof.
  intros Hw. destruct children as [|c0 rest].
  - by rewrite EvaluateCondition_keyless_nongroup.
  - rewrite (treeValue_at reg) by done. f_equal.
    by rewrite treeValue_group.
Qed.

Lemma orGroup_value reg data children w :
  customOperators w = reg ->
  fst (EvaluateCondition (NewOrGroup children) data w)
  = Returned (match children with
              | [] => true
              | _ => existsb (treeValue reg data) children
              end).
Proof.
  intros Hw. destruct children as [|c0 rest].
  - by rewrite EvaluateCondition_keyless_nongroup.
  - rewrite (treeValue_at reg) by done. f_equal.
    by rewrite treeValue_group.
Qed.

(** X10. A group made by [NewAndGroup] is true exactly when all its
    children are; a group made by [NewOrGroup] with at least one child is
    true exactly when one of its children is. Without children both are
    true: an empty OR group is not false. *)
Theorem constructor_group_values children data w :
  fst (EvaluateCondition (NewAndGroup children) data w)
  = Returned (forallb (treeValue (customOperators w) data) children)
  /\ fst (EvaluateCondition (NewOrGroup children) data w)
     = Returned (match children with
                 | [] => true
                 | _ => existsb (treeValue (customOperators w) data) children
                 end).
Proof. split; [by apply andGroup_value | by apply orGroup_value]. Qed.

(** X11. Nesting a group in a group of the same logic does not change the
    result: an AND group among the children of an AND group can be
    replaced by its children, and so can an OR group that has children
    among the children of an OR group. *)
Theorem nested_group_flattens pre inner post data w :
  fst (EvaluateCondition (NewAndGroup (pre ++ NewAndGroup inner :: post)) data w)
  = fst (EvaluateCondition (NewAndGroup (pre ++ inner ++ post)) data w)
  /\ (inner <> [] ->
      fst (EvaluateCondition (NewOrGroup (pre ++ NewOrGroup inner :: post)) data w)
      = fst (EvaluateCondition (NewOrGroup (pre ++ inner ++ post)) data w)).
Proof.
  assert (treeValue (customOperators w) data (NewAndGroup inner)
          = forallb (treeValue (customOperators w) data) inner) as Hand.
  { unfold treeValue at 1.
    by rewrite (andGroup_value (customOperators w)). }
  split.
  - rewrite !(andGroup_value (customOperators w)) by done. f_equal.
    rewrite !forallb_app. simpl. by rewrite Hand.
  - intros Hinner.
    assert (treeValue (customOperators w) data (NewOrGroup inner)
            = existsb (treeValue (customOperators w) data) inner) as Hor.
    { unfold treeValue at 1.
      rewrite (orGroup_value (customOperators w)) by done.
      by destruct inner. }
    rewrite !(orGroup_value (customOperators w)) by done. f_equal.
    destruct (pre ++ NewOrGroup inner :: post) eqn:H1; [by destruct pre |].
    destruct (pre ++ inner ++ post) eqn:H2; [by destruct pre, inner |].
    rewrite <- H1, <- H2. rewrite !existsb_app. simpl. by rewrite Hor.
Qed.

Lemma link_ignores_next_logic k o v g n n' data :
  evaluateConditionWithLogic (mkConditionWithLogic k o v g n) data
  = evaluateConditionWithLogic (mkConditionWithLogic k o v g n') data.
Proof. by rewrite !evaluateConditionWithLogic_unfold. Qed.

(** X13. The [NextLogic] of the last link of a chain is never read:
    changing it changes neither the result nor the events of the
    evaluation. *)
Theorem last_next_logic_ignored init k o v g n n' data w :
  EvaluateConditionGroup
    (mkConditionGroup (init ++ [mkConditionWithLogic k o v g n])) data w
  = EvaluateConditionGroup
      (mkConditionGroup (init ++ [mkConditionWithLogic k o v g n'])) data w.
Proof.
  assert (forall rest prev result w0,
    chainLoop (fun c => evaluateConditionWithLogic c data) prev result
              (rest ++ [mkConditionWithLogic k o v g n]) w0
    = chainLoop (fun c => evaluateConditionWithLogic c data) prev result
                (rest ++ [mkConditionWithLogic k o v g n']) w0) as Hloop.
  { induction rest as [|c rest IH]; intros prev result w0;
      cbn [app chainLoop]; unfold bind.
    - by rewrite (link_ignores_next_logic k o v g n n').
    - destruct (evaluateConditionWithLogic c data w0) as [[r|msg] w1]; [| done].
      apply IH. }
  rewrite !EvaluateConditionGroup_unfold. cbn [gConditions].
  destruct init as [|c init]; cbn [app chainLoop]; unfold bind.
  - by rewrite (link_ignores_next_logic k o v g n n').
  - destruct (evaluateConditionWithLogic c data w) as [[r|msg] w1]; [| done].
    apply Hloop.
Qed.

(** X14. A chain is evaluated strictly from left to right, without
    precedence between AND and OR: appending a link [l] to a chain that
    ends in [p] gives the value of that chain combined with the value of
    [l] by the [NextLogic] of [p]. *)
Theorem chain_extension init p l data w :
  fst (EvaluateConditionGroup (mkConditionGroup (init ++ [p; l])) data w)
  = Returned
      (connective (lNextLogic p)
         (chainValue (customOperators w) data (mkConditionGroup (init ++ [p])))
         (linkValue (customOperators w) data l)).
Proof.
  rewrite (chainValue_at (customOperators w)) by done. f_equal.
  rewrite !chainValue_fold. apply chainFold_snoc.
Qed.

Lemma connective_not_or logic a b :
  logic <> LogicOr -> connective logic a b = a && b.
Proof.
  intros Hne. unfold connective.
  destruct (String.eqb logic "AND"); [done |].
  destruct (String.eqb_spec logic "OR"); done.
Qed.

(** X15. A chain whose links, the last one apart, all carry a [NextLogic]
    other than OR (AND, none, or an unknown one) is the conjunction of its
    links; a chain whose links, the last one apart, all carry OR is their
    disjunction. *)
Theorem uniform_chain_value init lst data w :
  (Forall (fun l => lNextLogic l <> LogicOr) init ->
     fst (EvaluateConditionGroup (mkConditionGroup (init ++ [lst])) data w)
     = Returned (forallb (linkValue (customOperators w) data) (init ++ [lst])))
  /\ (Forall (fun l => lNextLogic l = LogicOr) init ->
      fst (EvaluateConditionGroup (mkConditionGroup (init ++ [lst])) data w)
      = Returned (existsb (linkValue (customOperators w) data) (init ++ [lst]))).
Proof.
  rewrite (chainValue_at (customOperators w)) by done.
  rewrite chainValue_fold. set (lv := linkValue (customOperators w) data).
  split; intros Hall; f_equal; revert lst;
    induction init as [|p init IH] using rev_ind; intros lst.
  - simpl. by rewrite andb_true_r.
  - apply Forall_app in Hall as [Hinit [Hp _]%Forall_cons].
    rewrite <- !app_assoc. cbn [app]. rewrite chainFold_snoc, (IH Hinit).
    rewrite connective_not_or by done.
    rewrite !forallb_app. simpl.
    by destruct (forallb lv init), (lv p), (lv lst).
  - simpl. by rewrite orb_false_r.
  - apply Forall_app in Hall as [Hinit [Hp _]%Forall_cons].
    rewrite <- !app_assoc. cbn [app]. rewrite chainFold_snoc, (IH Hinit).
    rewrite Hp. unfold connective. simpl.
    rewrite !existsb_app. simpl.
    by destruct (existsb lv init), (lv p), (lv lst).
Qed.

(** ** The shape of a converted chain *)

Lemma convertChildren_length convert logic n children :
  forall i, length (convertChildren convert logic n i children) = length children.
Proof. induction children as [|c rest IH]; intros i; simpl; [done | by rewrite IH]. Qed.

Lemma convertChildren_lookup convert logic n children :
  forall i j child,
    children !! j = Some child ->
    convertChildren convert logic n i children !! j
    = Some (if negb (String.eqb (cKey child) "") then
              mkConditionWithLogic (cKey child) (cOperator child) (cValue child)
                None (if (i + j <? n - 1)%nat then logic else "")
            else
              mkConditionWithLogic "" "" VNil (Some (convert child))
                (if (i + j <? n - 1)%nat then logic else "")).
Proof.
  induction children as [|c rest IH]; intros i j child Hj; [done |].
  destruct j as [|j]; simpl in *.
  - injection Hj as ->. by rewrite Nat.add_0_r.
  - rewrite (IH (S i) j child Hj). by replace (S i + j)%nat with (i + S j)%nat by lia.
Qed.

(** X16. The bridge turns a node with a key into a chain of one leaf link
    without [NextLogic], whatever else the node carries. It turns a node
    without a key into a chain with one link per child, in the order of
    the children: a child with a key becomes a leaf link with its key,
    operator and value, any other child becomes a nested chain, its own
    conversion; every link but the last carries the node's logic, and the
    last carries none. *)
Theorem converted_chain_shape c :
  (cKey c <> "" ->
     ConvertToConditionGroup c
     = mkConditionGroup
         [mkConditionWithLogic (cKey c) (cOperator c) (cValue c) None ""])
  /\ (cKey c = "" ->
      length (gConditions (ConvertToConditionGroup c)) = length (cChildren c)
      /\ forall i child,
          cChildren c !! i = Some child ->
          exists link,
            gConditions (ConvertToConditionGroup c) !! i = Some link
            /\ lNextLogic link
               = (if (i <? length (cChildren c) - 1)%nat then cLogic c else "")
            /\ (cKey child <> "" ->
                lGroup link = None /\ lKey link = cKey child
                /\ lOperator link = cOperator child
                /\ lValue link = cValue child)
            /\ (cKey child = "" ->
                lGroup link = Some (ConvertToConditionGroup child))).
Proof.
  rewrite ConvertToConditionGroup_unfold. split.
  - intros Hkey%String.eqb_neq. by rewrite Hkey.
  - intros Hkey. rewrite Hkey. simpl negb. cbv iota. split.
    + destruct (cChildren c) as [|c0 rest] eqn:Hch; [done |].
      cbn [length Nat.eqb gConditions].
      by rewrite convertChildren_length.
    + intros i child Hi.
      destruct (cChildren c) as [|c0 rest] eqn:Hch; [done |].
      cbn [length Nat.eqb gConditions].
      rewrite (convertChildren_lookup _ _ _ _ 0%nat i child Hi).
      eexists. split; [reflexivity |]. simpl Nat.add.
      destruct (String.eqb_spec (cKey child) ""); simpl; by repeat split.
Qed.

(** ** Degenerate nodes under conversion *)

Lemma EvaluateCondition_nonleaf_nongroup c data :
  isLeafNode c = false -> isGroupNode c = false ->
  EvaluateCondition c data = ret true.
Proof.
  unfold isLeafNode, isGroupNode. intros Hleaf Hgroup.
  rewrite EvaluateCondition_unfold. cbv zeta. rewrite Hleaf.
  destruct (cChildren c) as [|c0 rest] eqn:Hch; cbn [length Nat.ltb Nat.leb].
  - by rewrite andb_false_r.
  - cbn [length Nat.eqb negb] in Hgroup.
    rewrite andb_true_r in Hgroup. apply orb_false_iff in Hgroup as [Hand Hor].
    unfold switch. rewrite Hand, Hor. by destruct (String.eqb (cLogic c) "").
Qed.

(** X17. A node with a key but an empty operator, which is not a Group, is
    true for the tree evaluator, which evaluates nothing; its conversion
    is a leaf link with the empty operator, which the chain evaluator
    evaluates: it is false when no validator is registered under the empty
    identifier. *)
Theorem conversion_of_operatorless_leaf c data w :
  cKey c <> "" -> cOperator c = "" -> isGroupNode c = false ->
  customOperators w !! "" = None ->
  EvaluateCondition c data w = (Returned true, w)
  /\ EvaluateConditionGroup (ConvertToConditionGroup c) data w
     = (Returned false, logged w [LeafEvaluated (cKey c) "" (cValue c)]).
Proof.
  intros Hkey Hop Hgroup Hreg. split.
  - rewrite EvaluateCondition_nonleaf_nongroup; [done | | done].
    unfold isLeafNode. rewrite Hop. simpl. apply andb_false_r.
  - rewrite ConvertToConditionGroup_unfold.
    apply String.eqb_neq in Hkey. rewrite Hkey, Hop. simpl negb. cbv iota.
    rewrite EvaluateConditionGroup_unfold. cbn [gConditions].
    rewrite (evaluateConditionWithLogic_unfold
               (mkConditionWithLogic (cKey c) "" (cValue c) None "") data).
    cbn [lGroup lKey lOperator lValue chainLoop].
    apply (runs_at _ w false (([LeafEvaluated (cKey c) "" (cValue c)] ++ []) ++ [])).
    eapply runs_bind; [| apply runs_ret].
    unfold evalSingleCondition.
    eapply runs_bind; [apply runs_record |].
    simpl. destruct (negb _); by apply runs_callCustom_unregistered.
Qed.

Lemma fold_connective_not_or logic (val : Conditions -> bool) children result :
  logic <> LogicOr ->
  fold_left (fun acc c => connective logic acc (val c)) children result
  = result && forallb val children.
Proof.
  intros Hne. revert result.
  induction children as [|c rest IH]; intros result; simpl.
  - by rewrite andb_true_r.
  - rewrite IH, connective_not_or by done. by rewrite andb_assoc.
Qed.

(** X18. A node without a key that is not a Group (its logic is neither AND
    nor OR, or it has no children) is true for the tree evaluator, which
    evaluates nothing; its conversion is the chain of its converted
    children, which the chain evaluator combines as a conjunction. With
    well-formed children the converted chain is therefore true exactly
    when all the children are, and the two forms differ as soon as one
    child is false. *)
Theorem conversion_of_group_without_logic c data w :
  cKey c = "" -> isGroupNode c = false ->
  forallb wellFormed (cChildren c) = true ->
  EvaluateCondition c data w = (Returned true, w)
  /\ fst (EvaluateConditionGroup (ConvertToConditionGroup c) data w)
     = Returned (forallb (treeValue (customOperators w) data) (cChildren c)).
Proof.
  intros Hkey Hgroup Hwf. split.
  - rewrite EvaluateCondition_nonleaf_nongroup; [done | | done].
    unfold isLeafNode. by rewrite Hkey.
  - set (reg := customOperators w).
    rewrite ConvertToConditionGroup_unfold, Hkey. simpl negb. cbv iota.
    destruct (cChildren c) as [|c0 rest] eqn:Hch; [done |].
    cbn [length Nat.eqb].
    assert (cLogic c <> LogicOr) as Hlogic.
    { unfold isGroupNode in Hgroup. rewrite Hch in Hgroup. simpl in Hgroup.
      rewrite andb_true_r in Hgroup. apply orb_false_iff in Hgroup as [_ Hor].
      by apply String.eqb_neq. }
    simpl in Hwf. apply andb_true_iff in Hwf as [Hwf0 Hwfrest].
    cbn [convertChildren].
    destruct (converted_child_runs reg data c0
                (if (0 <? S (length rest) - 1)%nat then cLogic c else "")
                Hwf0 (converted_runs reg data c0 Hwf0)) as [t0 Ht0].
    set (link := if negb (String.eqb (cKey c0) "") then _ else _) in *.
    destruct (chainLoop_converted reg data (cLogic c) (S (length rest)) rest)
      with (i := 1%nat) (prev := link) (result := treeValue reg data c0)
      as [t1 Ht1].
    + apply Forall_forall. intros ch Hin.
      assert (wellFormed ch = true) as Hch'.
      { rewrite forallb_forall in Hwfrest. apply Hwfrest. by apply list_elem_of_In. }
      split; [done | by apply converted_runs].
    + reflexivity.
    + intros Hrest. subst link.
      destruct (String.eqb (cKey c0) ""); simpl; by destruct rest.
    + rewrite fold_connective_not_or in Ht1 by done.
      eapply runs_value; [| reflexivity].
      rewrite EvaluateConditionGroup_unfold. cbn [gConditions].
      eapply runs_bind; [exact Ht0 | exact Ht1].
Qed.

(** ** Nodes that are not groups, and what a leaf invokes *)

(** X20. A node that is not a Group (its logic is neither AND nor OR, or
    it has no children) is evaluated by its leaf fields alone: as a single
    condition when key and operator are set, and as true otherwise. Its
    children, if any, are not evaluated. *)
Theorem node_without_group_logic c data :
  isGroupNode c = false ->
  EvaluateCondition c data
  = if isLeafNode c
    then evalSingleCondition (cKey c) (cOperator c) (cValue c) data
    else ret true.
Proof.
  intros Hgroup. destruct (isLeafNode c) eqn:Hleaf.
  - by apply EvaluateCondition_leaf.
  - by apply EvaluateCondition_nonleaf_nongroup.
Qed.

(** X21. Evaluating a leaf records the leaf and invokes at most one
    validator: the one registered under the leaf's own operator, with the
    field value (nil for an absent key) and the condition's value; the
    leaf is then what that validator returns, false if it panics. *)
Theorem leaf_invokes_at_most_its_own_validator key op value data w :
  exists b t,
    evalSingleCondition key op value data w
    = (Returned b, logged w (LeafEvaluated key op value :: t))
    /\ (t = []
        \/ exists f,
             customOperators w !! op = Some f
             /\ t = [ValidatorInvoked op (default VNil (data !! key)) value]
             /\ b = contained (f (default VNil (data !! key)) value)).
Proof.
  set (reg := customOperators w).
  set (v := default VNil (data !! key)).
  set (P := fun m : M bool =>
    exists b t, runs m reg b t
      /\ (t = [] \/ exists f, reg !! op = Some f
                       /\ t = [ValidatorInvoked op v value]
                       /\ b = contained (f v value))).
  assert (forall b, P (ret b)) as Hret.
  { intros b. exists b, []. split; [apply runs_ret | by left]. }
  assert (P (callCustom op v value)) as Hcall.
  { destruct (reg !! op) as [f|] eqn:Hf.
    - exists (contained (f v value)), [ValidatorInvoked op v value].
      split; [by apply runs_callCustom_registered |]. right. by exists f.
    - exists false, []. split; [by apply runs_callCustom_unregistered | by left]. }
  assert (P (switch op
    [ (OperatorIsnull, ret (negb (bool_decide (is_Some (data !! key))) || isNil v));
      (OperatorIsnotnull, ret (bool_decide (is_Some (data !! key)) && negb (isNil v)));
      (OperatorIsEmpty, ret (isEmpty v));
      (OperatorIsNotEmpty, ret (negb (isEmpty v)));
      (OperatorIsTrue, ret (toBool v));
      (OperatorIsFalse, ret (negb (toBool v))) ]
    (if negb (bool_decide (is_Some (data !! key))) then callCustom op v value
     else
       switch op
         [ (OperatorEq, ret (isEqual v value));
           (OperatorNeq, ret (negb (isEqual v value)));
           (OperatorGt, ret (compareValues v value >? 0)%Z);
           (OperatorGte, ret (compareValues v value >=? 0)%Z);
           (OperatorLt, ret (compareValues v value <? 0)%Z);
           (OperatorLte, ret (compareValues v value <=? 0)%Z);
           (OperatorIn, ret (isIn v value));
           (OperatorNin, ret (negb (isIn v value)));
           (OperatorContains, ret (contains v value));
           (OperatorNcontains, ret (negb (contains v value)));
           (OperatorLike, ret (like v value false));
           (OperatorIlike, ret (like v value true));
           (OperatorNlike, ret (negb (like v value false)));
           (OperatorStartsWith, ret (startsWith v value));
           (OperatorEndsWith, ret (endsWith v value));
           (OperatorBetween, ret (between v value));
           (OperatorNotBetween, ret (negb (between v value))) ]
         (callCustom op v value)))) as (b & t & Hrun & Ht).
  { apply switch_elim; [| repeat constructor; apply Hret].
    destruct (negb _); [exact Hcall |].
    apply switch_elim; [exact Hcall | repeat constructor; apply Hret]. }
  exists b, t. split; [| exact Ht].
  apply (runs_at _ w b ([LeafEvaluated key op value] ++ t)).
  unfold evalSingleCondition.
  eapply runs_bind; [apply runs_record | exact Hrun].
Qed.

End FurtherProperties.

(** * The order of [compareValues] *)

Section CoercionOrder.
Context {lib : GoLib}.

Lemma numericOrder_ltb (n1 n2 : float) :
  (if PrimFloat.ltb n1 n2 then -1 else if PrimFloat.ltb n2 n1 then 1 else 0)%Z
  = numericOrder n1 n2.
Proof.
  unfold numericOrder.
  rewrite FloatAxioms.compare_spec, !FloatAxioms.ltb_spec. unfold SFltb.
  rewrite (SFcompare_antisym (Prim2SF n1) (Prim2SF n2)).
  by destruct (SFcompare (Prim2SF n1) (Prim2SF n2)) as [[]|].
Qed.

(** C7. [compareValues] follows the fixed order of coercions: when both
    arguments coerce to numbers, the result is the sign of their numeric
    comparison; otherwise, when both coerce to instants, it is the sign of
    the difference of the two instants; otherwise it is the lexicographic
    order of the two string forms. So ["5"] is below ["10"] once both
    parse as the numbers 5 and 10, and ["b"] is above ["a"] when ["b"]
    is not a number and none of the five layouts of [toTime] parses it. *)
Theorem compareValues_tie_break v1 v2 :
  (forall n1 n2, toNumber v1 = Some n1 -> toNumber v2 = Some n2 ->
     compareValues v1 v2 = numericOrder n1 n2)
  /\ (toNumber v1 = None \/ toNumber v2 = None ->
      forall t1 t2, toTime v1 = Some t1 -> toTime v2 = Some t2 ->
      compareValues v1 v2 = Z.sgn (t1 - t2))
  /\ (toNumber v1 = None \/ toNumber v2 = None ->
      toTime v1 = None \/ toTime v2 = None ->
      compareValues v1 v2 = lexicographicOrder (toString v1) (toString v2))
  /\ (ParseFloat "5" = Some 5%float -> ParseFloat "10" = Some 10%float ->
      (compareValues (VString "5") (VString "10") < 0)%Z)
  /\ (ParseFloat "b" = None ->
      Forall (fun layout => TimeParse layout "b" = None) timeFormats ->
      (compareValues (VString "b") (VString "a") > 0)%Z).
Proof.
  assert (forall a b, toNumber a = None \/ toNumber b = None ->
            compareValues a b
            = match toTime a, toTime b with
              | Some t1, Some t2 =>
                  if (t1 <? t2)%Z then -1 else if (t2 <? t1)%Z then 1 else 0
              | _, _ =>
                  if String.ltb (toString a) (toString b) then -1
                  else if String.ltb (toString b) (toString a) then 1 else 0
              end)%Z as Hnot_numeric.
  { intros a b Hnum. unfold compareValues.
    destruct (toNumber a), (toNumber b); try done; by destruct Hnum. }
  assert (forall a b, toTime a = None \/ toTime b = None ->
            match toTime a, toTime b with
            | Some t1, Some t2 =>
                if (t1 <? t2)%Z then -1 else if (t2 <? t1)%Z then 1 else 0
            | _, _ =>
                if String.ltb (toString a) (toString b) then -1
                else if String.ltb (toString b) (toString a) then 1 else 0
            end%Z = lexicographicOrder (toString a) (toString b)) as Hnot_time.
  { intros a b Htime.
    assert (forall s1 s2,
              (if String.ltb s1 s2 then -1 else if String.ltb s2 s1 then 1 else 0)%Z
              = lexicographicOrder s1 s2) as Hlex.
    { intros s1 s2. unfold lexicographicOrder, String.ltb.
      rewrite (String.compare_antisym s1 s2).
      by destruct (String.compare s2 s1). }
    destruct (toTime a), (toTime b); try apply Hlex; by destruct Htime. }
  repeat split.
  - intros n1 n2 H1 H2. unfold compareValues. rewrite H1, H2.
    apply numericOrder_ltb.
  - intros Hnum t1 t2 H1 H2. rewrite Hnot_numeric by done. rewrite H1, H2.
    destruct (Z.ltb_spec t1 t2); [lia |].
    destruct (Z.ltb_spec t2 t1); lia.
  - intros Hnum Htime. rewrite Hnot_numeric by done. by apply Hnot_time.
  - intros H5 H10. unfold compareValues, toNumber, parseFloat.
    rewrite H5, H10. reflexivity.
  - intros Hb Htime. rewrite Hnot_numeric by (by left).
    rewrite Hnot_time; [reflexivity |].
    left. unfold toTime.
    induction Htime as [|layout rest Hlayout _ IH]; [done |].
    simpl. by rewrite Hlayout.
Qed.

End CoercionOrder.

(** * Closed instances of the further properties *)

Section FurtherInstances.
#[local] Existing Instance exampleLib.

Lemma compareValues_tie_break_witness :
  ParseFloat "5" = Some 5%float
  /\ ParseFloat "10" = Some 10%float
  /\ (compareValues (VString "5") (VString "10") < 0)%Z
  /\ ParseFloat "b" = None
  /\ Forall (fun layout => TimeParse layout "b" = None) timeFormats
  /\ (compareValues (VString "b") (VString "a") > 0)%Z
  /\ toNumber (VInt KInt 5) = Some 5%float
  /\ toNumber (VFloat KFloat64 2.5%float) = Some 2.5%float
  /\ compareValues (VInt KInt 5) (VFloat KFloat64 2.5%float)
     = numericOrder 5%float 2.5%float
  /\ toNumber (VTime 0) = None
  /\ toTime (VInt KInt64 9223372036854775807)
     = Some (Unix 9223372036854775807)
  /\ toTime (VTime 0) = Some 0%Z
  /\ compareValues (VInt KInt64 9223372036854775807) (VTime 0)
     = Z.sgn (Unix 9223372036854775807 - 0).
Proof.
  assert (Forall (fun layout => TimeParse layout "b" = None) timeFormats)
    as Hlayouts by (repeat constructor).
  destruct (compareValues_tie_break (VString "5") (VString "10"))
    as (_ & _ & _ & Hnumeric & Hlexicographic).
  split; [reflexivity |]. split; [reflexivity |].
  split; [exact (Hnumeric eq_refl eq_refl) |].
  split; [reflexivity |]. split; [exact Hlayouts |].
  split; [exact (Hlexicographic eq_refl Hlayouts) |].
  split; [reflexivity |]. split; [reflexivity |].
  split; [exact (proj1 (compareValues_tie_break (VInt KInt 5)
                          (VFloat KFloat64 2.5%float))
                   5%float 2.5%float eq_refl eq_refl) |].
  split; [reflexivity |]. split; [reflexivity |]. split; [reflexivity |].
  exact (proj1 (proj2 (compareValues_tie_break
                         (VInt KInt64 9223372036854775807) (VTime 0)))
           (or_intror eq_refl) _ _ eq_refl eq_refl).
Defined.

(** [time.Unix] wraps around: the instant of the largest [int64] is before
    the zero instant. *)
Example int64_instant_wraps_around :
  compareValues (VInt KInt64 9223372036854775807) (VTime 0) = (-1)%Z
  /\ compareValues (VInt KInt64 0) (VTime 0) = 1%Z.
Proof. split; reflexivity. Qed.

Lemma between_inclusive_witness :
  isNil (VInt KInt 25) = false
  /\ between (VInt KInt 25) (VSlice [VInt KInt 25; VInt KInt 25]) = true.
Proof.
  split; [reflexivity |].
  exact (proj1 (proj2 (proj2 (between_inclusive (VInt KInt 25) eq_refl)))).
Defined.

Lemma register_then_lookup_witness :
  "boom" <> "iequal"
  /\ exists w',
       RegisterCustomOperator "iequal" (Some iequal) boomWorld = (Returned tt, w')
       /\ customOperators w' !! "iequal" = Some iequal
       /\ customOperators w' !! "boom" = customOperators boomWorld !! "boom".
Proof.
  assert ("boom" <> "iequal") as Hne by discriminate.
  split; [exact Hne |].
  destruct (register_then_lookup "iequal" iequal boomWorld)
    as [(w' & Hregister & Hlookup & Hother & _) _].
  exists w'. split; [exact Hregister |]. split; [exact Hlookup |].
  exact (Hother "boom" Hne).
Defined.

Lemma unregister_undoes_register_witness :
  customOperators boomWorld !! "iequal" = None
  /\ snd (UnregisterCustomOperator "iequal"
            (snd (RegisterCustomOperator "iequal" (Some iequal) boomWorld)))
     = boomWorld.
Proof.
  split; [reflexivity |].
  exact (proj2 (proj2 (proj2 (unregister_undoes_register "iequal" iequal boomWorld))
                      eq_refl)).
Defined.

Lemma registered_operators_listed_witness :
  is_Some (customOperators boomWorld !! "boom")
  /\ exists ops,
       GetRegisteredCustomOperators boomWorld = (Returned ops, boomWorld)
       /\ "boom" ∈ ops.
Proof.
  assert (is_Some (customOperators boomWorld !! "boom")) as Hsome
    by (by exists panicking).
  split; [exact Hsome |].
  destruct (registered_operators_listed boomWorld) as (ops & Hlist & _ & Hiff & _).
  exists ops. split; [exact Hlist |]. exact (proj2 (Hiff "boom") Hsome).
Defined.

Lemma custom_operator_semantics_witness :
  inList "iequal" builtinOperators = false
  /\ evalSingleCondition "country" "iequal" (VString "th") person iequalRegistered
     = (Returned true,
        logged iequalRegistered
               [LeafEvaluated "country" "iequal" (VString "th");
                ValidatorInvoked "iequal" (VString "TH") (VString "th")]).
Proof.
  split; [reflexivity |].
  exact (custom_operator_semantics "country" "iequal" (VString "th") person
           iequalRegistered eq_refl).
Defined.

Lemma negated_operators_witness :
  is_Some (person !! "age")
  /\ In (OperatorEq, OperatorNeq) negatedPairs
  /\ leafValue "age" OperatorNeq (VInt KInt 25) person emptyWorld
     = negb (leafValue "age" OperatorEq (VInt KInt 25) person emptyWorld)
  /\ noData !! "age" = None
  /\ leafValue "age" OperatorEq (VInt KInt 25) noData emptyWorld = false
  /\ leafValue "age" OperatorNeq (VInt KInt 25) noData emptyWorld = false.
Proof.
  assert (is_Some (person !! "age")) as Hsome by (by eexists).
  assert (In (OperatorEq, OperatorNeq) negatedPairs) as Hin by (by left).
  destruct (negated_operators "age" (VInt KInt 25) person emptyWorld)
    as (_ & Hpresent & _).
  destruct (negated_operators "age" (VInt KInt 25) noData emptyWorld)
    as (_ & _ & Habsent).
  split; [exact Hsome |]. split; [exact Hin |].
  split; [exact (Hpresent Hsome _ _ Hin) |]. split; [reflexivity |].
  exact (Habsent eq_refl _ _ Hin eq_refl eq_refl).
Defined.

Lemma exampleDeepEqual_sym (a b : any) :
  exampleDeepEqual a b = exampleDeepEqual b a.
Proof.
  destruct a as [|x|[] x|[] x|x|x|x|x], b as [|y|[] y|[] y|y|y|y|y];
    try reflexivity; simpl;
    first [ apply Z.eqb_sym | apply float_eqb_sym | apply String.eqb_sym
          | by destruct x, y ].
Qed.

Lemma isEqual_symmetric_witness :
  (forall a b, DeepEqual a b = DeepEqual b a)
  /\ isEqual (VInt KInt 25) (VString "25") = isEqual (VString "25") (VInt KInt 25).
Proof.
  split; [exact exampleDeepEqual_sym |].
  exact (isEqual_symmetric (VInt KInt 25) (VString "25") exampleDeepEqual_sym).
Defined.

Lemma prefix_and_suffix_are_contained_witness :
  startsWith (VString "john@example.com") (VString "john") = true
  /\ contains (VString "john@example.com") (VString "john") = true
  /\ endsWith (VString "john@example.com") (VString ".com") = true
  /\ contains (VString "john@example.com") (VString ".com") = true.
Proof.
  split; [reflexivity |].
  split; [exact (proj1 (prefix_and_suffix_are_contained
                          (VString "john@example.com") (VString "john")) eq_refl) |].
  split; [reflexivity |].
  exact (proj1 (proj2 (prefix_and_suffix_are_contained
                         (VString "john@example.com") (VString ".com"))) eq_refl).
Defined.

Lemma nested_group_flattens_witness :
  [NewSimpleCondition "country" OperatorEq (VString "TH")] <> []
  /\ fst (EvaluateCondition
            (NewOrGroup
               [ NewSimpleCondition "country" OperatorEq (VString "SG");
                 NewOrGroup [NewSimpleCondition "country" OperatorEq (VString "TH")] ])
            person emptyWorld)
     = fst (EvaluateCondition
              (NewOrGroup
                 [ NewSimpleCondition "country" OperatorEq (VString "SG");
                   NewSimpleCondition "country" OperatorEq (VString "TH") ])
              person emptyWorld).
Proof.
  assert ([NewSimpleCondition "country" OperatorEq (VString "TH")] <> [])
    as Hne by discriminate.
  split; [exact Hne |].
  exact (proj2 (nested_group_flattens
                  [NewSimpleCondition "country" OperatorEq (VString "SG")]
                  [NewSimpleCondition "country" OperatorEq (VString "TH")]
                  [] person emptyWorld) Hne).
Defined.

Lemma uniform_chain_value_witness :
  Forall (fun l => lNextLogic l = LogicOr) [ageAbove30Or]
  /\ fst (EvaluateConditionGroup
            (mkConditionGroup ([ageAbove30Or] ++ [countryTh])) person emptyWorld)
     = Returned (existsb (linkValue (customOperators emptyWorld) person)
                         ([ageAbove30Or] ++ [countryTh])).
Proof.
  assert (Forall (fun l => lNextLogic l = LogicOr) [ageAbove30Or]) as Hall
    by (by repeat constructor).
  split; [exact Hall |].
  exact (proj2 (uniform_chain_value [ageAbove30Or] countryTh person emptyWorld)
               Hall).
Defined.

Lemma converted_chain_shape_witness :
  cKey adultInRegion = ""
  /\ length (gConditions (ConvertToConditionGroup adultInRegion)) = 2%nat
  /\ cKey (NewSimpleCondition "age" OperatorGt (VInt KInt 18)) <> ""
  /\ ConvertToConditionGroup (NewSimpleCondition "age" OperatorGt (VInt KInt 18))
     = mkConditionGroup
         [mkConditionWithLogic "age" OperatorGt (VInt KInt 18) None ""].
Proof.
  split; [reflexivity |].
  split; [exact (proj1 (proj2 (converted_chain_shape adultInRegion) eq_refl)) |].
  assert (cKey (NewSimpleCondition "age" OperatorGt (VInt KInt 18)) <> "")
    as Hkey by discriminate.
  split; [exact Hkey |].
  exact (proj1 (converted_chain_shape
                  (NewSimpleCondition "age" OperatorGt (VInt KInt 18))) Hkey).
Defined.

Lemma conversion_of_operatorless_leaf_witness :
  cKey operatorlessLeaf <> ""
  /\ cOperator operatorlessLeaf = ""
  /\ isGroupNode operatorlessLeaf = false
  /\ customOperators emptyWorld !! "" = None
  /\ EvaluateCondition operatorlessLeaf person emptyWorld
     = (Returned true, emptyWorld)
  /\ EvaluateConditionGroup (ConvertToConditionGroup operatorlessLeaf)
                            person emptyWorld
     = (Returned false, logged emptyWorld [LeafEvaluated "age" "" VNil]).
Proof.
  assert (cKey operatorlessLeaf <> "") as Hkey by discriminate.
  split; [exact Hkey |]. split; [reflexivity |]. split; [reflexivity |].
  split; [reflexivity |].
  exact (conversion_of_operatorless_leaf operatorlessLeaf person emptyWorld
           Hkey eq_refl eq_refl eq_refl).
Defined.

Lemma conversion_of_group_without_logic_witness :
  cKey groupWithoutLogic = ""
  /\ isGroupNode groupWithoutLogic = false
  /\ forallb wellFormed (cChildren groupWithoutLogic) = true
  /\ EvaluateCondition groupWithoutLogic person emptyWorld
     = (Returned true, emptyWorld)
  /\ fst (EvaluateConditionGroup (ConvertToConditionGroup groupWithoutLogic)
                                 person emptyWorld)
     = Returned (forallb (treeValue (customOperators emptyWorld) person)
                         (cChildren groupWithoutLogic)).
Proof.
  split; [reflexivity |]. split; [reflexivity |]. split; [reflexivity |].
  exact (conversion_of_group_without_logic groupWithoutLogic person emptyWorld
           eq_refl eq_refl eq_refl).
Defined.

Lemma node_without_group_logic_witness :
  isGroupNode xorNode = false
  /\ EvaluateCondition xorNode person
     = evalSingleCondition "age" OperatorGt (VInt KInt 18) person.
Proof.
  split; [reflexivity |].
  exact (node_without_group_logic xorNode person eq_refl).
Defined.

(** The two divergences of the bridge on [person]: the conversion of
    [groupWithoutLogic] is false where the node is true, and so is the
    conversion of [operatorlessLeaf]. *)
Example conversion_of_group_without_logic_differs :
  fst (EvaluateCondition groupWithoutLogic person emptyWorld) = Returned true
  /\ fst (EvaluateConditionGroup (ConvertToConditionGroup groupWithoutLogic)
                                 person emptyWorld) = Returned false.
Proof. split; reflexivity. Qed.

End FurtherInstances.

(** * Validators that are closures *)

Section ClosureProperties.
Context {lib : GoLib}.
Implicit Types (σ : Stateful.State) (key : string) (op : Operator).
Implicit Types (f : CustomOperatorValidator).

Lemma writeThrough_same (v : any) : Stateful.writeThrough v v = v.
Proof. destruct v; simpl; try done. by rewrite Nat.eqb_refl. Qed.

Lemma writeField_same key (d : gmap string any) :
  Stateful.writeField key (default VNil (d !! key)) (default VNil (d !! key)) d = d.
Proof.
  unfold Stateful.writeField. destruct (d !! key) as [v|] eqn:Hv; [| done].
  simpl. rewrite writeThrough_same. by apply insert_id.
Qed.

Lemma agrees_ret {A} σ (x : A) (b : bool) :
  Stateful.agrees σ x (Stateful.ret (b, x)) (ret b).
Proof. exists b, []. split; [done | apply runs_ret]. Qed.

Lemma switch_rel {A B} (R : A -> B -> Prop) x
    (cases1 : list (string * A)) (cases2 : list (string * B)) d1 d2 :
  R d1 d2 ->
  Forall2 (fun c1 c2 => c1.1 = c2.1 /\ R c1.2 c2.2) cases1 cases2 ->
  R (switch x cases1 d1) (switch x cases2 d2).
Proof.
  intros Hd Hc.
  induction Hc as [|[c1 a1] [c2 a2] r1 r2 [Hk Ha] _ IH]; simpl; [done |].
  simpl in Hk, Ha. subst c2. by destruct (String.eqb x c1).
Qed.

Lemma callCustom_agrees σ key op value :
  Stateful.validatorsAreFunctions σ ->
  Stateful.agrees σ value
    (Stateful.callCustom key op (default VNil (Stateful.data σ !! key)) value)
    (callCustom op (default VNil (Stateful.data σ !! key)) value).
Proof.
  intros Hf. unfold Stateful.agrees, Stateful.callCustom.
  destruct (Stateful.customOperators σ !! op) as [c|] eqn:Hc.
  - destruct (Hf op c Hc) as [f ->].
    eexists _, _. split.
    + cbn [Stateful.function Stateful.body Stateful.result
           Stateful.storeAfter Stateful.fieldValueAfter
           Stateful.expectedValueAfter Stateful.registryCalls
           Stateful.applyCalls fold_left].
      rewrite writeThrough_same, writeField_same. by destruct σ.
    + apply (runs_callCustom_registered _ op f).
      unfold Stateful.functions. by rewrite lookup_fmap, Hc.
  - exists false, []. split; [done |].
    apply runs_callCustom_unregistered.
    unfold Stateful.functions. by rewrite lookup_fmap, Hc.
Qed.

Lemma evalSingleCondition_agrees σ key op value :
  Stateful.validatorsAreFunctions σ ->
  Stateful.agrees σ value
    (Stateful.evalSingleCondition key op value)
    (evalSingleCondition key op value (Stateful.data σ)).
Proof.
  intros Hf.
  assert (forall (ms : Stateful.S (bool * any)) (mp : M bool),
            Stateful.agrees σ value ms mp ->
            Stateful.agrees σ value ms
              (let* _ := record (LeafEvaluated key op value) in mp)) as Hrecord.
  { intros ms mp (b & t & Hs & Hp).
    exists b, ([LeafEvaluated key op value] ++ t). split; [exact Hs |].
    eapply runs_bind; [apply runs_record | exact Hp]. }
  unfold evalSingleCondition. apply Hrecord. clear Hrecord.
  unfold Stateful.agrees, Stateful.evalSingleCondition. cbv zeta.
  apply (switch_rel
           (fun (ms : Stateful.S (bool * any)) (mp : M bool) =>
              exists b t, ms σ = (Returned (b, value), σ)
                          /\ runs mp (Stateful.functions σ) b t)).
  - destruct (negb _); [by apply callCustom_agrees |].
    apply (switch_rel
             (fun (ms : Stateful.S (bool * any)) (mp : M bool) =>
                exists b t, ms σ = (Returned (b, value), σ)
                            /\ runs mp (Stateful.functions σ) b t)).
    + by apply callCustom_agrees.
    + repeat constructor; apply agrees_ret.
  - repeat constructor; apply agrees_ret.
Qed.

Lemma Stateful_EvaluateCondition_unfold cond :
  Stateful.EvaluateCondition cond =
  let single :=
    if negb (String.eqb (cKey cond) "") && negb (String.eqb (cOperator cond) "")
    then
      Stateful.bind
        (Stateful.evalSingleCondition (cKey cond) (cOperator cond) (cValue cond))
        (fun r =>
           Stateful.ret (fst r,
                         mkConditions (cLogic cond) (cChildren cond) (cKey cond)
                                      (cOperator cond) (snd r)))
    else Stateful.ret (true, cond) in
  if negb (String.eqb (cLogic cond) "") && (0 <? length (cChildren cond))%nat then
    switch (cLogic cond)
      [ (LogicAnd,
         Stateful.bind
           (Stateful.andChildren Stateful.EvaluateCondition (cChildren cond))
           (fun r =>
              Stateful.ret (fst r,
                            mkConditions (cLogic cond) (snd r) (cKey cond)
                                         (cOperator cond) (cValue cond))));
        (LogicOr,
         Stateful.bind
           (Stateful.orChildren Stateful.EvaluateCondition (cChildren cond))
           (fun r =>
              Stateful.ret (fst r,
                            mkConditions (cLogic cond) (snd r) (cKey cond)
                                         (cOperator cond) (cValue cond)))) ]
      single
  else single.
Proof. by destruct cond. Qed.

Lemma Stateful_EvaluateConditionGroup_unfold group :
  Stateful.EvaluateConditionGroup group =
  match gConditions group with
  | [] => Stateful.ret (true, group)
  | first :: rest =>
      Stateful.bind (Stateful.evaluateConditionWithLogic first) (fun r =>
      Stateful.bind
        (Stateful.chainLoop Stateful.evaluateConditionWithLogic
                            (snd r) (fst r) rest)
        (fun rs => Stateful.ret (fst rs, mkConditionGroup (snd r :: snd rs))))
  end.
Proof. by destruct group. Qed.

Lemma Stateful_evaluateConditionWithLogic_unfold condition :
  Stateful.evaluateConditionWithLogic condition =
  match lGroup condition with
  | Some group =>
      Stateful.bind (Stateful.EvaluateConditionGroup group) (fun r =>
        Stateful.ret
          (fst r,
           mkConditionWithLogic (lKey condition) (lOperator condition)
                                (lValue condition) (Some (snd r))
                                (lNextLogic condition)))
  | None =>
      Stateful.bind
        (Stateful.evalSingleCondition (lKey condition) (lOperator condition)
                                      (lValue condition))
        (fun r =>
           Stateful.ret
             (fst r,
              mkConditionWithLogic (lKey condition) (lOperator condition)
                                   (snd r) None (lNextLogic condition)))
  end.
Proof. by destruct condition. Qed.

(** A computation that agrees, followed by a continuation that rebuilds
    the condition around what the computation returned. *)
Lemma agrees_rebuild {A B} σ (x : A) (y : B) (rebuild : A -> B)
    (ms : Stateful.S (bool * A)) (mp : M bool) :
  rebuild x = y ->
  Stateful.agrees σ x ms mp ->
  Stateful.agrees σ y
    (Stateful.bind ms (fun r => Stateful.ret (fst r, rebuild (snd r)))) mp.
Proof.
  intros <- (b & t & Hs & Hp). exists b, t. split; [| exact Hp].
  unfold Stateful.bind. by rewrite Hs.
Qed.

Lemma andChildren_agrees σ (evalS : Conditions -> Stateful.S (bool * Conditions))
    (evalP : Conditions -> M bool) children :
  Forall (fun c => Stateful.agrees σ c (evalS c) (evalP c)) children ->
  Stateful.agrees σ children
    (Stateful.andChildren evalS children) (andChildren evalP children).
Proof.
  induction 1 as [|c rest (b & t & Hs & Hp) _ (b' & t' & Hs' & Hp')].
  - apply agrees_ret.
  - cbn [Stateful.andChildren andChildren]. destruct b.
    + exists b', (t ++ t'). split.
      * unfold Stateful.bind at 1. rewrite Hs. cbn [fst snd negb].
        unfold Stateful.bind. cbn [Stateful.andChildren] in Hs'. by rewrite Hs'.
      * eapply runs_bind; [exact Hp | exact Hp'].
    + exists false, (t ++ []). split.
      * unfold Stateful.bind. by rewrite Hs.
      * eapply runs_bind; [exact Hp | apply runs_ret].
Qed.

Lemma orChildren_agrees σ (evalS : Conditions -> Stateful.S (bool * Conditions))
    (evalP : Conditions -> M bool) children :
  Forall (fun c => Stateful.agrees σ c (evalS c) (evalP c)) children ->
  Stateful.agrees σ children
    (Stateful.orChildren evalS children) (orChildren evalP children).
Proof.
  induction 1 as [|c rest (b & t & Hs & Hp) _ (b' & t' & Hs' & Hp')].
  - apply agrees_ret.
  - cbn [Stateful.orChildren orChildren]. destruct b.
    + exists true, (t ++ []). split.
      * unfold Stateful.bind. by rewrite Hs.
      * eapply runs_bind; [exact Hp | apply runs_ret].
    + exists b', (t ++ t'). split.
      * unfold Stateful.bind at 1. rewrite Hs. cbn [fst snd].
        unfold Stateful.bind. cbn [Stateful.orChildren] in Hs'. by rewrite Hs'.
      * eapply runs_bind; [exact Hp | exact Hp'].
Qed.

Lemma chainLoop_agrees σ
    (evalS : ConditionWithLogic -> Stateful.S (bool * ConditionWithLogic))
    (evalP : ConditionWithLogic -> M bool) rest :
  Forall (fun c => Stateful.agrees σ c (evalS c) (evalP c)) rest ->
  forall prev result,
    Stateful.agrees σ rest
      (Stateful.chainLoop evalS prev result rest)
      (chainLoop evalP prev result rest).
Proof.
  induction 1 as [|c rest (b & t & Hs & Hp) _ IH]; intros prev result.
  - apply agrees_ret.
  - destruct (IH c (applyLogic (lNextLogic prev) result b))
      as (b' & t' & Hs' & Hp').
    exists b', (t ++ t'). split.
    + cbn [Stateful.chainLoop]. unfold Stateful.bind at 1. rewrite Hs.
      cbn [fst snd]. unfold Stateful.bind.
      cbn [Stateful.chainLoop] in Hs'. by rewrite Hs'.
    + cbn [chainLoop]. eapply runs_bind; [exact Hp | exact Hp'].
Qed.

(** With validators that are functions, the tree evaluator of this
    machine returns what the tree evaluator of the first machine returns,
    and leaves the registry, the captured variables, the record and the
    tree as they were. *)
Lemma EvaluateCondition_agrees σ cond :
  Stateful.validatorsAreFunctions σ ->
  Stateful.agrees σ cond (Stateful.EvaluateCondition cond)
                  (EvaluateCondition cond (Stateful.data σ)).
Proof.
  intros Hf.
  induction cond as [l ch k o v IH] using Conditions_nested_ind.
  rewrite Stateful_EvaluateCondition_unfold, EvaluateCondition_unfold.
  cbn [cLogic cChildren cKey cOperator cValue]. cbv zeta.
  assert (Stateful.agrees σ (mkConditions l ch k o v)
            (if negb (String.eqb k "") && negb (String.eqb o "")
             then
               Stateful.bind (Stateful.evalSingleCondition k o v)
                 (fun r => Stateful.ret (fst r, mkConditions l ch k o (snd r)))
             else Stateful.ret (true, mkConditions l ch k o v))
            (if negb (String.eqb k "") && negb (String.eqb o "")
             then evalSingleCondition k o v (Stateful.data σ)
             else ret true)) as Hsingle.
  { destruct (negb (String.eqb k "") && negb (String.eqb o ""));
      [| apply agrees_ret].
    apply (agrees_rebuild σ v _ (fun v' => mkConditions l ch k o v'));
      [done | by apply evalSingleCondition_agrees]. }
  destruct (negb (String.eqb l "") && (0 <? length ch)%nat); [| exact Hsingle].
  apply (switch_rel (Stateful.agrees σ (mkConditions l ch k o v)));
    [exact Hsingle |].
  repeat constructor; cbn [fst snd].
  - apply (agrees_rebuild σ ch _ (fun ch' => mkConditions l ch' k o v));
      [done | by apply andChildren_agrees].
  - apply (agrees_rebuild σ ch _ (fun ch' => mkConditions l ch' k o v));
      [done | by apply orChildren_agrees].
Qed.

Lemma EvaluateConditionGroup_agrees σ group :
  Stateful.validatorsAreFunctions σ ->
  Stateful.agrees σ group (Stateful.EvaluateConditionGroup group)
                  (EvaluateConditionGroup group (Stateful.data σ)).
Proof.
  intros Hf.
  induction group as [links IH | k o v n | k o v g n IH]
    using ConditionGroup_nested_ind
    with (Q := fun c =>
                 Stateful.agrees σ c (Stateful.evaluateConditionWithLogic c)
                   (evaluateConditionWithLogic c (Stateful.data σ))).
  - rewrite Stateful_EvaluateConditionGroup_unfold, EvaluateConditionGroup_unfold.
    cbn [gConditions].
    destruct IH as [|first rest (b & t & Hs & Hp) Hrest]; [apply agrees_ret |].
    destruct (chainLoop_agrees σ _ _ rest Hrest first b)
      as (b' & t' & Hs' & Hp').
    exists b', (t ++ t'). split.
    + unfold Stateful.bind at 1. rewrite Hs. cbn [fst snd].
      unfold Stateful.bind. by rewrite Hs'.
    + eapply runs_bind; [exact Hp | exact Hp'].
  - rewrite Stateful_evaluateConditionWithLogic_unfold,
      evaluateConditionWithLogic_unfold.
    cbn [lGroup lKey lOperator lValue lNextLogic].
    apply (agrees_rebuild σ v _ (fun v' => mkConditionWithLogic k o v' None n));
      [done | by apply evalSingleCondition_agrees].
  - rewrite Stateful_evaluateConditionWithLogic_unfold,
      evaluateConditionWithLogic_unfold.
    cbn [lGroup lKey lOperator lValue lNextLogic].
    apply (agrees_rebuild σ g _
             (fun g' => mkConditionWithLogic k o v (Some g') n)); [done | exact IH].
Qed.

Lemma agrees_answer {A} σ (x : A) (ms : Stateful.S (bool * A)) (mp : M bool) :
  Stateful.agrees σ x ms mp ->
  exists b, ms σ = (Returned (b, x), σ)
            /\ fst (mp (mkWorld (Stateful.functions σ) [])) = Returned b.
Proof.
  intros (b & t & Hs & Hp). exists b. split; [exact Hs |]. by rewrite (Hp []).
Qed.

Lemma functions_registry σ σ' :
  Stateful.customOperators σ' = Stateful.customOperators σ ->
  Stateful.validatorsAreFunctions σ ->
  Stateful.validatorsAreFunctions σ' /\ Stateful.functions σ' = Stateful.functions σ.
Proof.
  intros Hreg Hf. unfold Stateful.validatorsAreFunctions, Stateful.functions.
  by rewrite Hreg.
Qed.


(** C9, as it holds. When every registered validator is a function of
    its two arguments, a call of the tree evaluator returns a boolean and
    leaves the registry, the variables the validators captured, the record
    and the tree as they were; and the boolean is a function of the
    registry, the tree and the record: every call in a state with the same
    registry and the same record, whatever went before, returns the same
    boolean. *)
Theorem evaluation_is_function_of_registry_tree_and_data t σ :
  Stateful.validatorsAreFunctions σ ->
  exists b,
    Stateful.EvaluateCondition t σ = (Returned (b, t), σ)
    /\ forall σ',
         Stateful.customOperators σ' = Stateful.customOperators σ ->
         Stateful.data σ' = Stateful.data σ ->
         Stateful.EvaluateCondition t σ' = (Returned (b, t), σ').
Proof.
  intros Hf.
  destruct (agrees_answer _ _ _ _ (EvaluateCondition_agrees σ t Hf))
    as (b & Hs & Hp).
  exists b. split; [exact Hs |]. intros σ' Hreg Hdata.
  destruct (functions_registry σ σ' Hreg Hf) as [Hf' Hfun].
  destruct (agrees_answer _ _ _ _ (EvaluateCondition_agrees σ' t Hf'))
    as (b' & Hs' & Hp').
  rewrite Hfun, Hdata, Hp in Hp'. injection Hp' as <-. exact Hs'.
Qed.

(** X12. On a chain, when every registered validator is a function of
    its two arguments, [EvaluateConditionGroup] returns a boolean and
    leaves the registry, the variables the validators captured, the record
    and the chain as they were; every call in a state with the same
    registry and the same record returns the same boolean. *)
Theorem chain_evaluation_is_function_of_registry_and_data g σ :
  Stateful.validatorsAreFunctions σ ->
  exists b,
    Stateful.EvaluateConditionGroup g σ = (Returned (b, g), σ)
    /\ forall σ',
         Stateful.customOperators σ' = Stateful.customOperators σ ->
         Stateful.data σ' = Stateful.data σ ->
         Stateful.EvaluateConditionGroup g σ' = (Returned (b, g), σ').
Proof.
  intros Hf.
  destruct (agrees_answer _ _ _ _ (EvaluateConditionGroup_agrees σ g Hf))
    as (b & Hs & Hp).
  exists b. split; [exact Hs |]. intros σ' Hreg Hdata.
  destruct (functions_registry σ σ' Hreg Hf) as [Hf' Hfun].
  destruct (agrees_answer _ _ _ _ (EvaluateConditionGroup_agrees σ' g Hf'))
    as (b' & Hs' & Hp').
  rewrite Hfun, Hdata, Hp in Hp'. injection Hp' as <-. exact Hs'.
Qed.

End ClosureProperties.

(** * Closed instances with closures *)

Section ClosureInstances.
#[local] Existing Instance exampleLib.

Lemma stateWith_function op f data :
  Stateful.validatorsAreFunctions (stateWith op (Stateful.function f) data).
Proof.
  intros op' c Hc. cbn [stateWith Stateful.customOperators] in Hc.
  apply lookup_insert_Some in Hc as [[_ <-]|[_ Hc]]; [by exists f |].
  by rewrite lookup_empty in Hc.
Qed.



Lemma evaluation_is_function_of_registry_tree_and_data_witness :
  Stateful.validatorsAreFunctions iequalState
  /\ exists b,
       Stateful.EvaluateCondition countryIsTh iequalState
       = (Returned (b, countryIsTh), iequalState)
       /\ forall σ',
            Stateful.customOperators σ' = Stateful.customOperators iequalState ->
            Stateful.data σ' = Stateful.data iequalState ->
            Stateful.EvaluateCondition countryIsTh σ'
            = (Returned (b, countryIsTh), σ').
Proof.
  assert (Stateful.validatorsAreFunctions iequalState) as Hf
    by apply stateWith_function.
  split; [exact Hf |].
  exact (evaluation_is_function_of_registry_tree_and_data countryIsTh
           iequalState Hf).
Defined.

(** C9: the claim as stated fails, in each of its parts. The result
    depends on the registry: the same leaf on the same record is true
    while [iequal] is registered and false after it is unregistered. Under
    one registry, tree and record, two calls differ when a validator keeps
    state ([firstCallOnly]: true, then false) or unregisters an operator
    ([selfRemoving]: true, then false). And a validator that writes
    through its arguments ([scrub]) leaves the record and the tree
    changed. *)
Lemma evaluation_depends_on_more_than_tree_and_data :
  (Stateful.answer (Stateful.EvaluateCondition countryIsTh iequalState)
   = Returned true
   /\ Stateful.answer
        (Stateful.EvaluateCondition countryIsTh
           (snd (Stateful.UnregisterCustomOperator "iequal" iequalState)))
      = Returned false
   /\ Stateful.data (snd (Stateful.UnregisterCustomOperator "iequal" iequalState))
      = Stateful.data iequalState)
  /\ (Stateful.answer (Stateful.EvaluateCondition onceLeaf onceState)
      = Returned true
      /\ Stateful.answer
           (Stateful.EvaluateCondition onceLeaf
              (snd (Stateful.EvaluateCondition onceLeaf onceState)))
         = Returned false
      /\ Stateful.customOperators
           (snd (Stateful.EvaluateCondition onceLeaf onceState))
         = Stateful.customOperators onceState
      /\ Stateful.data (snd (Stateful.EvaluateCondition onceLeaf onceState))
         = Stateful.data onceState)
  /\ (Stateful.answer (Stateful.EvaluateCondition onceLeaf selfRemovingState)
      = Returned true
      /\ Stateful.answer
           (Stateful.EvaluateCondition onceLeaf
              (snd (Stateful.EvaluateCondition onceLeaf selfRemovingState)))
         = Returned false)
  /\ (Stateful.data scrubState !! "tags"
      = Some (VSlice [VString "a"; VString "b"])
      /\ Stateful.EvaluateCondition scrubLeaf scrubState
         = (Returned (true,
                      NewSimpleCondition "tags" "scrub"
                        (VSlice [VNil; VString "y"])),
            stateWith "scrub" scrub
                      (<["tags" := VSlice [VNil; VString "b"]]> ∅))).
Proof. repeat split. Qed.

Lemma chain_evaluation_is_function_of_registry_and_data_witness :
  Stateful.validatorsAreFunctions iequalState
  /\ exists b,
       Stateful.EvaluateConditionGroup
         (ConvertToConditionGroup adultInThailand) iequalState
       = (Returned (b, ConvertToConditionGroup adultInThailand), iequalState)
       /\ forall σ',
            Stateful.customOperators σ' = Stateful.customOperators iequalState ->
            Stateful.data σ' = Stateful.data iequalState ->
            Stateful.EvaluateConditionGroup
              (ConvertToConditionGroup adultInThailand) σ'
            = (Returned (b, ConvertToConditionGroup adultInThailand), σ').
Proof.
  assert (Stateful.validatorsAreFunctions iequalState) as Hf
    by apply stateWith_function.
  split; [exact Hf |].
  exact (chain_evaluation_is_function_of_registry_and_data
           (ConvertToConditionGroup adultInThailand) iequalState Hf).
Defined.

(** The scenario of the two witnesses returns true; and the chain of one
    link [age once nil] is true at its first evaluation and false at the
    second when the validator keeps state. *)
Example adult_in_thailand_is_true :
  Stateful.answer (Stateful.EvaluateCondition adultInThailand iequalState)
  = Returned true
  /\ Stateful.answer
       (Stateful.EvaluateConditionGroup
          (ConvertToConditionGroup adultInThailand) iequalState)
     = Returned true.
Proof. split; reflexivity. Qed.

Example chain_with_closure_differs_between_calls :
  Stateful.answer
    (Stateful.EvaluateConditionGroup (ConvertToConditionGroup onceLeaf) onceState)
  = Returned true
  /\ Stateful.answer
       (Stateful.EvaluateConditionGroup (ConvertToConditionGroup onceLeaf)
          (snd (Stateful.EvaluateConditionGroup
                  (ConvertToConditionGroup onceLeaf) onceState)))
     = Returned false.
Proof. split; reflexivity. Qed.

End ClosureInstances.
